(** * Sample-size calculator for Welch's generalised t-test

    A shallow embedding of [sample_size_calculator.ipynb]: the generalised
    Welch-Satterthwaite equation, the iterative minimum-sample-size
    procedure with its two right-hand sides (equal sizes, fixed ratio) and
    the minimum detectable effect.

    Numbers.  The notebook computes with IEEE doubles (Python [float] and
    [numpy.float64]).  The embedding keeps the structure of that arithmetic
    and drops its rounding: a value is a real number or one of the three
    special values, finite operations are exact, division by zero and
    invalid operations give the special values numpy gives, and every
    comparison with NaN is false.  Overflow and the sign of zero are not
    modelled (a zero divisor is a positive zero).

    Exceptions.  A function that can raise returns a [result].  The one
    division between two elements of the caller's sequences raises
    ZeroDivisionError when both are plain Python numbers; every other
    division has a numpy operand and returns an infinity or NaN.

    Loops.  The [while] loop of [get_min_sample_sizes] need not end; a run
    takes the number of loop tests it may evaluate and answers [None] when
    that number does not suffice.

    Quantiles.  scipy's [norm.ppf] and [t.ppf] are parameters (class
    [Quantiles]). *)

From Stdlib Require Import String Reals Lra Lia ZArith Bool List Permutation Sorted.
Import ListNotations.
Open Scope R_scope.

(* ================================================================== *)
(** * Numbers *)
(* ================================================================== *)

Inductive float64 : Type :=
| Fin (r : R)
| PInf
| NInf
| NaN.

Definition is_zero (x : float64) : bool :=
  match x with
  | Fin r => if Req_dec_T r 0 then true else false
  | _ => false
  end.

Definition fneg (x : float64) : float64 :=
  match x with
  | Fin r => Fin (- r)
  | PInf => NInf
  | NInf => PInf
  | NaN => NaN
  end.

Definition fadd (x y : float64) : float64 :=
  match x, y with
  | NaN, _ | _, NaN => NaN
  | Fin a, Fin b => Fin (a + b)
  | PInf, NInf | NInf, PInf => NaN
  | PInf, _ | _, PInf => PInf
  | NInf, _ | _, NInf => NInf
  end.

Definition fsub (x y : float64) : float64 := fadd x (fneg y).

(** The infinity with the sign of [r], NaN when [r] is zero. *)
Definition inf_signed (r : R) : float64 :=
  if Req_dec_T r 0 then NaN else if Rlt_dec 0 r then PInf else NInf.

Definition fmul (x y : float64) : float64 :=
  match x, y with
  | NaN, _ | _, NaN => NaN
  | Fin a, Fin b => Fin (a * b)
  | Fin a, PInf | PInf, Fin a => inf_signed a
  | Fin a, NInf | NInf, Fin a => inf_signed (- a)
  | PInf, PInf | NInf, NInf => PInf
  | PInf, NInf | NInf, PInf => NInf
  end.

(** numpy's division: a zero divisor gives an infinity (or NaN for 0/0),
    never an exception. *)
Definition fdiv (x y : float64) : float64 :=
  match x, y with
  | NaN, _ | _, NaN => NaN
  | Fin a, Fin b => if Req_dec_T b 0 then inf_signed a else Fin (a / b)
  | Fin _, PInf | Fin _, NInf => Fin 0
  | PInf, Fin b => if Rle_dec 0 b then PInf else NInf
  | NInf, Fin b => if Rle_dec 0 b then NInf else PInf
  | _, _ => NaN
  end.

(** [x <= y] as Python evaluates it. *)
Definition fle (x y : float64) : bool :=
  match x, y with
  | NaN, _ | _, NaN => false
  | Fin a, Fin b => if Rle_dec a b then true else false
  | NInf, _ | _, PInf => true
  | _, _ => false
  end.

(** [x > y] as Python evaluates it. *)
Definition fgt (x y : float64) : bool :=
  match x, y with
  | NaN, _ | _, NaN => false
  | Fin a, Fin b => if Rlt_dec b a then true else false
  | PInf, PInf | NInf, NInf => false
  | PInf, _ | _, NInf => true
  | _, _ => false
  end.

(** [np.power(x, 2)]. *)
Definition np_power2 (x : float64) : float64 := fmul x x.

(** [np.ceil]. *)
Definition np_ceil (x : float64) : float64 :=
  match x with
  | Fin r => Fin (IZR (Zceil r))
  | _ => x
  end.

(** [np.sqrt]. *)
Definition np_sqrt (x : float64) : float64 :=
  match x with
  | Fin r => if Rle_dec 0 r then Fin (sqrt r) else NaN
  | PInf => PInf
  | _ => NaN
  end.

(** [np.sum] of a one-dimensional array. *)
Definition np_sum (l : list float64) : float64 := fold_left fadd l (Fin 0).

(* ================================================================== *)
(** * Python values and exceptions *)
(* ================================================================== *)

Inductive pyerr : Type :=
| ZeroDivisionError
| IndexError
| ValueError
| AssertionError (msg : string).

Inductive result (A : Type) : Type :=
| Ok (a : A)
| Raise (e : pyerr).
Arguments Ok {A} a.
Arguments Raise {A} e.

Definition bind {A B} (m : result A) (k : A -> result B) : result B :=
  match m with
  | Ok a => k a
  | Raise e => Raise e
  end.

Notation "x <- m ;; k" := (bind m (fun x => k))
  (at level 61, m at next level, right associativity).

(** An element of a caller's sequence is a plain Python number or a numpy
    scalar (an element of an array).  The two differ in one place: [/]
    between two plain Python numbers raises on a zero divisor. *)
Inductive pynum : Type :=
| PyNum (x : float64)
| NpNum (x : float64).

Definition val (x : pynum) : float64 :=
  match x with PyNum v | NpNum v => v end.

Definition is_np (x : pynum) : bool :=
  match x with PyNum _ => false | NpNum _ => true end.

(** [a / b] on sequence elements. *)
Definition truediv (a b : pynum) : result float64 :=
  if negb (is_np a || is_np b) && is_zero (val b)
  then Raise ZeroDivisionError
  else Ok (fdiv (val a) (val b)).

(** [l[i]] for [i >= 0]. *)
Definition getitem {A} (l : list A) (i : nat) : result A :=
  match nth_error l i with
  | Some x => Ok x
  | None => Raise IndexError
  end.

(** [np.array(l)] as far as arithmetic is concerned. *)
Definition np_array (l : list pynum) : list float64 := map val l.

(** [np.repeat(x, k)]. *)
Definition np_repeat (x : float64) (k : nat) : list pynum :=
  repeat (NpNum x) k.

(* ================================================================== *)
(** * Generalised Welch-Satterthwaite equation *)
(* ================================================================== *)

(** One pass of the body of the [for] loop. *)
Definition gws_body (s_squared n : list pynum) (i : nat)
    (acc : float64 * float64) : result (float64 * float64) :=
  let '(numerator_acc, denominator) := acc in
  s_i <- getitem s_squared i ;;
  n_i <- getitem n i ;;
  q <- truediv s_i n_i ;;
  Ok (fadd numerator_acc q,
      fadd denominator
        (fdiv (np_power2 (val s_i))
              (fmul (fmul (fsub (val n_i) (Fin 1)) (val n_i)) (val n_i)))).

Fixpoint gws_for (s_squared n : list pynum) (range : list nat)
    (acc : float64 * float64) : result (float64 * float64) :=
  match range with
  | [] => Ok acc
  | i :: rest =>
      acc' <- gws_body s_squared n i acc ;;
      gws_for s_squared n rest acc'
  end.

Definition generalised_welch_satterthwaite (s_squared n : list pynum)
    : result float64 :=
  acc <- gws_for s_squared n (seq 0 (length s_squared)) (Fin 0, Fin 0) ;;
  Ok (fdiv (np_power2 (fst acc)) (snd acc)).

(* ================================================================== *)
(** * Quantile differences *)
(* ================================================================== *)

(** [scipy.stats.norm.ppf] and [scipy.stats.t.ppf] are not part of the
    notebook; the development is parametric in them. *)
Class Quantiles : Type := {
  norm_ppf : float64 -> float64;
  t_ppf : float64 -> float64 -> float64
}.

Section QuantileDiff.
Context {Q : Quantiles}.

Definition norm_quantile_diff (significance_level min_power : float64)
    : float64 :=
  np_power2 (fsub (norm_ppf (fsub (Fin 1) significance_level))
                  (norm_ppf (fsub (Fin 1) min_power))).

Definition t_quantile_diff (significance_level min_power nu : float64)
    : float64 :=
  np_power2 (fsub (t_ppf (fsub (Fin 1) significance_level) nu)
                  (t_ppf (fsub (Fin 1) min_power) nu)).
End QuantileDiff.

(* ================================================================== *)
(** * The iterative procedure *)
(* ================================================================== *)

(** The local variables of [get_min_sample_sizes] that live across
    iterations of its [while] loop. *)
Record loop_state : Type := {
  n_min : float64;
  nu : float64;
  rhs_t_quantile : float64
}.

Inductive step : Type :=
| Continue (st : loop_state)
| Return (n : float64)
| Fail (e : pyerr).

Section Solver.
(** [K] is the type of the keyword arguments; [lookup_s] reads the key
    s_squared from them; [rhs_func kw None] is the call of [rhs_func] on
    the keyword arguments alone and [rhs_func kw (Some nu)] the call with
    the extra keyword argument nu. *)
Context {K : Type}.
Variable lookup_s : K -> list pynum.
Variable rhs_func : K -> option float64 -> result float64.
Variable kwargs : K.

(** [generalised_welch_satterthwaite(s_squared,
      np.repeat(n_min, np.array(s_squared).shape[0]))]. *)
Definition nu_at (n_min : float64) : result float64 :=
  generalised_welch_satterthwaite (lookup_s kwargs)
    (np_repeat n_min (length (lookup_s kwargs))).

(** The loop test and, when it holds, the loop body. *)
Definition while_step (st : loop_state) : step :=
  if fle (n_min st) (rhs_t_quantile st) then
    let n_min' := np_ceil (rhs_t_quantile st) in
    match nu_at n_min' with
    | Raise e => Fail e
    | Ok nu' =>
        match rhs_func kwargs (Some nu') with
        | Raise e => Fail e
        | Ok rhs' =>
            Continue {| n_min := n_min'; nu := nu'; rhs_t_quantile := rhs' |}
        end
    end
  else Return (n_min st).

(** The [while] loop; [None] when the loop test has been evaluated
    [fuel] times and the loop is still running. *)
Fixpoint while_loop (fuel : nat) (st : loop_state)
    : option (result float64) :=
  match fuel with
  | O => None
  | S fuel' =>
      match while_step st with
      | Continue st' => while_loop fuel' st'
      | Return n => Some (Ok n)
      | Fail e => Some (Raise e)
      end
  end.

(** The statements before the loop. *)
Definition init_state : result loop_state :=
  rhs_normal_quantile <- rhs_func kwargs None ;;
  let n_min := np_ceil rhs_normal_quantile in
  nu <- nu_at n_min ;;
  rhs_t_quantile <- rhs_func kwargs (Some nu) ;;
  Ok {| n_min := n_min; nu := nu; rhs_t_quantile := rhs_t_quantile |}.

Definition get_min_sample_sizes (fuel : nat) : option (result float64) :=
  match init_state with
  | Raise e => Some (Raise e)
  | Ok st => while_loop fuel st
  end.

(** The state after [k] completed iterations, when there are that many. *)
Fixpoint state_after (k : nat) (st : loop_state) : option loop_state :=
  match k with
  | O => Some st
  | S k' =>
      match while_step st with
      | Continue st' => state_after k' st'
      | _ => None
      end
  end.

(** The successive values of [n_min] over at most [k] iterations. *)
Fixpoint candidates (k : nat) (st : loop_state) : list float64 :=
  n_min st ::
  match k with
  | O => []
  | S k' =>
      match while_step st with
      | Continue st' => candidates k' st'
      | _ => []
      end
  end.
End Solver.

(* ================================================================== *)
(** * Scenario formulas *)
(* ================================================================== *)

(** Element-wise arithmetic on two one-dimensional arrays, with numpy's
    broadcasting of an array of length one. *)
Definition broadcast (f : float64 -> float64 -> float64)
    (a b : list float64) : result (list float64) :=
  if (length a =? length b)%nat then
    Ok (map (fun p => f (fst p) (snd p)) (combine a b))
  else if (length b =? 1)%nat then
    Ok (map (fun x => f x (hd NaN b)) a)
  else if (length a =? 1)%nat then
    Ok (map (fun y => f (hd NaN a) y) b)
  else Raise ValueError.

Record kwargs_equal : Type := {
  eq_s_squared : list pynum;
  eq_theta : float64;
  eq_significance_level : float64;
  eq_min_power : float64
}.

Record kwargs_ratioed : Type := {
  ra_s_squared : list pynum;
  ra_ratio : list pynum;
  ra_theta : float64;
  ra_significance_level : float64;
  ra_min_power : float64
}.

Definition ratio_assert_msg : string :=
  "Please provide the ratio of at least one group".

Section Scenarios.
Context {Q : Quantiles}.

Definition rhs_value_equal (kw : kwargs_equal) (nu : option float64)
    : result float64 :=
  let quantile_diff :=
    match nu with
    | None =>
        norm_quantile_diff (eq_significance_level kw) (eq_min_power kw)
    | Some nu =>
        t_quantile_diff (eq_significance_level kw) (eq_min_power kw) nu
    end in
  Ok (fdiv (fmul quantile_diff (np_sum (np_array (eq_s_squared kw))))
           (np_power2 (eq_theta kw))).

Definition get_min_sample_sizes_equal (fuel : nat)
    (s_squared : list pynum) (theta significance_level min_power : float64)
    : option (result float64) :=
  get_min_sample_sizes eq_s_squared rhs_value_equal
    {| eq_s_squared := s_squared; eq_theta := theta;
       eq_significance_level := significance_level;
       eq_min_power := min_power |} fuel.

Definition rhs_value_ratioed (kw : kwargs_ratioed) (nu : option float64)
    : result float64 :=
  let quantile_diff :=
    match nu with
    | None =>
        norm_quantile_diff (ra_significance_level kw) (ra_min_power kw)
    | Some nu =>
        t_quantile_diff (ra_significance_level kw) (ra_min_power kw) nu
    end in
  ratio_0 <- getitem (ra_ratio kw) 0 ;;
  terms <- broadcast fdiv
             (map (fun s => fmul s (val ratio_0))
                  (np_array (ra_s_squared kw)))
             (np_array (ra_ratio kw)) ;;
  Ok (fdiv (fmul quantile_diff (np_sum terms)) (np_power2 (ra_theta kw))).

Definition get_min_sample_sizes_ratioed (fuel : nat)
    (s_squared ratio : list pynum)
    (theta significance_level min_power : float64)
    : option (result float64) :=
  if (0 <? length ratio)%nat then
    get_min_sample_sizes ra_s_squared rhs_value_ratioed
      {| ra_s_squared := s_squared; ra_ratio := ratio; ra_theta := theta;
         ra_significance_level := significance_level;
         ra_min_power := min_power |} fuel
  else Some (Raise (AssertionError ratio_assert_msg)).

Definition get_min_detectable_effect (s_squared n : list pynum)
    (significance_level min_power : float64) : result float64 :=
  nu <- generalised_welch_satterthwaite s_squared n ;;
  terms <- broadcast fdiv (np_array s_squared) (np_array n) ;;
  Ok (fmul (fsub (t_ppf (fsub (Fin 1) significance_level) nu)
                 (t_ppf (fsub (Fin 1) min_power) nu))
           (np_sqrt (np_sum terms))).
End Scenarios.

(* ================================================================== *)
(** * Auxiliary definitions used in the statements *)
(* ================================================================== *)

(** ** The loop of the equation, group by group *)

(** The [for] loop of [generalised_welch_satterthwaite] walks the two
    sequences in lockstep; [gws_zip] is that walk by recursion on the
    sequences (see [gws_for_zip]): what a group adds to each sum, and
    whether its first division raises. *)
Definition gws_num (p : pynum * pynum) : float64 :=
  fdiv (val (fst p)) (val (snd p)).

Definition gws_den (p : pynum * pynum) : float64 :=
  fdiv (np_power2 (val (fst p)))
       (fmul (fmul (fsub (val (snd p)) (Fin 1)) (val (snd p))) (val (snd p))).

Definition gws_raises (p : pynum * pynum) : bool :=
  negb (is_np (fst p) || is_np (snd p)) && is_zero (val (snd p)).

Fixpoint gws_zip (s_squared n : list pynum) (acc : float64 * float64)
    : result (float64 * float64) :=
  match s_squared with
  | [] => Ok acc
  | s_i :: s' =>
      match n with
      | [] => Raise IndexError
      | n_i :: n' =>
          if gws_raises (s_i, n_i) then Raise ZeroDivisionError
          else gws_zip s' n' (fadd (fst acc) (gws_num (s_i, n_i)),
                              fadd (snd acc) (gws_den (s_i, n_i)))
      end
  end.

Definition fsum (l : list float64) : float64 := fold_right fadd (Fin 0) l.

Definition Rsum (l : list R) : R := fold_right Rplus 0 l.

(** A real number or the positive infinity. *)
Definition fin_or_pinf (d : float64) : Prop := d = PInf \/ exists r, d = Fin r.

(** The two sums as the loop accumulates them, for real variances and
    sizes: each group adds s / n to the first and s^2 / ((n - 1) n n) to
    the second. *)
Definition loop_numerator (s_squared n : list R) : R :=
  Rsum (map (fun p => fst p / snd p) (combine s_squared n)).

Definition loop_denominator (s_squared n : list R) : R :=
  Rsum (map (fun p => fst p * fst p / ((snd p - 1) * snd p * snd p))
            (combine s_squared n)).

(** ** The equation as the specification writes it *)

(** psi_g = s_g^2 / n_g and
    nu = (sum_g psi_g)^2 / sum_g (psi_g^2 / (n_g - 1)); a pair is the
    variance and the size of a group. *)
Definition psi (p : R * R) : R := fst p / snd p.

Definition welch_numerator (s_squared n : list R) : R :=
  (Rsum (map psi (combine s_squared n))) ^ 2.

Definition welch_denominator (s_squared n : list R) : R :=
  Rsum (map (fun p => (psi p) ^ 2 / (snd p - 1)) (combine s_squared n)).

Definition welch_satterthwaite_formula (s_squared n : list R) : float64 :=
  fdiv (Fin (welch_numerator s_squared n)) (Fin (welch_denominator s_squared n)).

(** ** The iteration *)

(** The relation [x <= y] holds, as a proposition. *)
Definition fle_prop (x y : float64) : Prop := fle x y = true.

(** What the loop maintains: the stored nu and right-hand side are the ones
    computed from the stored candidate, and the candidate is a ceiling. *)
Definition consistent {K : Type} (lookup_s : K -> list pynum)
    (rhs_func : K -> option float64 -> result float64) (kwargs : K)
    (st : loop_state) : Prop :=
  nu_at lookup_s kwargs (n_min st) = Ok (nu st) /\
  rhs_func kwargs (Some (nu st)) = Ok (rhs_t_quantile st) /\
  exists x, n_min st = np_ceil x.

(** [x] is equal to [y] up to the relative tolerance [tol]. *)
Definition approx_equal (tol x y : R) : Prop :=
  Rabs (x - y) <= tol * Rabs y.

(** ** Inputs of the examples *)

(** A stand-in for scipy's quantile functions where an example has to run:
    the quantile function p |-> 4 p - 2 of the uniform distribution on
    [-2, 2], for every positive number of degrees of freedom; as in scipy,
    degrees of freedom that are not positive give NaN. *)
Definition uniform_ppf (p : float64) : float64 :=
  match p with
  | Fin x => Fin (4 * x - 2)
  | _ => NaN
  end.

Definition uniform_t_ppf (p df : float64) : float64 :=
  match df with
  | Fin v => if Rlt_dec 0 v then uniform_ppf p else NaN
  | PInf => uniform_ppf p
  | _ => NaN
  end.

Definition uniform_quantiles : Quantiles :=
  {| norm_ppf := uniform_ppf; t_ppf := uniform_t_ppf |}.

(** A right-hand side that is the same number whatever nu is. *)
Definition rhs_constant (r : float64) (_ : unit) (_ : option float64)
    : result float64 := Ok r.

(** A right-hand side that is infinite under the normal approximation and
    undefined afterwards (as the two scenario formulas are for theta = 0). *)
Definition rhs_infinite (_ : unit) (nu : option float64) : result float64 :=
  match nu with
  | None => Ok PInf
  | Some _ => Ok NaN
  end.

(** The variances [0.25]*4 of the notebook's examples. *)
Definition quarter_variances : list pynum :=
  [PyNum (Fin 0.25); PyNum (Fin 0.25); PyNum (Fin 0.25); PyNum (Fin 0.25)].

(** The keyword arguments of the call
    get_min_sample_sizes_equal(s_squared=[0.25]*4, theta=3,
    significance_level=0.05, min_power=0.8). *)
Definition large_effect_kwargs : kwargs_equal :=
  {| eq_s_squared := quarter_variances; eq_theta := Fin 3;
     eq_significance_level := Fin 0.05; eq_min_power := Fin 0.8 |}.

(** The keyword arguments of the call
    get_min_sample_sizes_equal(s_squared=[0.25, 0.25], theta=theta,
    significance_level=0.05, min_power=0.8). *)
Definition two_groups_kwargs (theta : R) : kwargs_equal :=
  {| eq_s_squared := [PyNum (Fin 0.25); PyNum (Fin 0.25)];
     eq_theta := Fin theta;
     eq_significance_level := Fin 0.05; eq_min_power := Fin 0.8 |}.

(** The keyword arguments of the call
    get_min_sample_sizes_ratioed(s_squared=[0.25, 0.25], ratio=[1],
    theta=1, significance_level=0.05, min_power=0.8). *)
Definition short_ratio_kwargs : kwargs_ratioed :=
  {| ra_s_squared := [PyNum (Fin 0.25); PyNum (Fin 0.25)];
     ra_ratio := [PyNum (Fin 1)]; ra_theta := Fin 1;
     ra_significance_level := Fin 0.05; ra_min_power := Fin 0.8 |}.

(** ** Rescaled inputs *)

(** [c * x] for a plain Python number [c]: the product has the kind of
    [x]. *)
Definition py_scale (c : R) (x : pynum) : pynum :=
  match x with
  | PyNum v => PyNum (fmul (Fin c) v)
  | NpNum v => NpNum (fmul (Fin c) v)
  end.

(** A group whose division of the variance by the size raises: both are
    plain Python numbers and the size is zero. *)
Definition python_zero_size (p : pynum * pynum) : Prop :=
  is_np (fst p) = false /\ is_np (snd p) = false /\ val (snd p) = Fin 0.

(** A right-hand side that raises [e] whatever its arguments. *)
Definition rhs_raising (e : pyerr) (_ : unit) (_ : option float64)
    : result float64 := Raise e.

(* ================================================================== *)
(** * Arithmetic of the number model *)
(* ================================================================== *)

#[local] Arguments fadd : simpl never.
#[local] Arguments fsub : simpl never.
#[local] Arguments fmul : simpl never.
#[local] Arguments fdiv : simpl never.
#[local] Arguments np_power2 : simpl never.

Lemma fadd_comm (x y : float64) : fadd x y = fadd y x.
Proof. destruct x, y; unfold fadd; try reflexivity. f_equal; lra. Qed.

Lemma fadd_assoc (x y z : float64) : fadd x (fadd y z) = fadd (fadd x y) z.
Proof. destruct x, y, z; unfold fadd; try reflexivity. f_equal; lra. Qed.

Lemma fadd_0_r (x : float64) : fadd x (Fin 0) = x.
Proof. destruct x; unfold fadd; try reflexivity. f_equal; lra. Qed.

Lemma fadd_fin (a b : R) : fadd (Fin a) (Fin b) = Fin (a + b).
Proof. reflexivity. Qed.

Lemma fsub_fin (a b : R) : fsub (Fin a) (Fin b) = Fin (a - b).
Proof. reflexivity. Qed.

Lemma fmul_fin (a b : R) : fmul (Fin a) (Fin b) = Fin (a * b).
Proof. reflexivity. Qed.

Lemma fadd_0_l (x : float64) : fadd (Fin 0) x = x.
Proof. rewrite fadd_comm. apply fadd_0_r. Qed.

Lemma fdiv_fin (a b : R) : b <> 0 -> fdiv (Fin a) (Fin b) = Fin (a / b).
Proof.
  intros Hb. unfold fdiv.
  destruct (Req_dec_T b 0); [contradiction | reflexivity].
Qed.

Lemma fsum_app (l1 l2 : list float64) :
  fsum (l1 ++ l2) = fadd (fsum l1) (fsum l2).
Proof.
  induction l1 as [| x l1 IH]; simpl.
  - now rewrite fadd_0_l.
  - now rewrite IH, fadd_assoc.
Qed.

Lemma fsum_perm (l1 l2 : list float64) :
  Permutation l1 l2 -> fsum l1 = fsum l2.
Proof.
  induction 1; simpl.
  - reflexivity.
  - now rewrite IHPermutation.
  - rewrite !fadd_assoc. f_equal. apply fadd_comm.
  - congruence.
Qed.

Lemma fold_left_fadd (l : list float64) (a : float64) :
  fold_left fadd l a = fadd a (fsum l).
Proof.
  revert a. induction l as [| x l IH]; intros a; simpl.
  - now rewrite fadd_0_r.
  - now rewrite IH, fadd_assoc.
Qed.

Lemma np_sum_fsum (l : list float64) : np_sum l = fsum l.
Proof. unfold np_sum. now rewrite fold_left_fadd, fadd_0_l. Qed.

Lemma fsum_fin (l : list R) : fsum (map Fin l) = Fin (Rsum l).
Proof.
  induction l as [| x l IH]; simpl; [reflexivity |].
  now rewrite IH, fadd_fin.
Qed.

(* ================================================================== *)
(** * The Welch-Satterthwaite loop *)
(* ================================================================== *)

Lemma getitem_middle {A} (pre : list A) (x : A) (post : list A) :
  getitem (pre ++ x :: post) (length pre) = Ok x.
Proof. unfold getitem. now rewrite nth_error_app2, Nat.sub_diag by lia. Qed.

Lemma getitem_end {A} (l : list A) : getitem l (length l) = Raise IndexError.
Proof.
  unfold getitem.
  destruct (nth_error l (length l)) eqn:E; [| reflexivity].
  assert (H : nth_error l (length l) <> None) by congruence.
  apply nth_error_Some in H. lia.
Qed.

(** The indexed loop over [range(0, len(s_squared), 1)] is the lockstep
    walk of the two sequences. *)
Lemma gws_for_zip_gen (s n pre_s pre_n : list pynum) (acc : float64 * float64) :
  length pre_s = length pre_n ->
  gws_for (pre_s ++ s) (pre_n ++ n) (seq (length pre_s) (length s)) acc
  = gws_zip s n acc.
Proof.
  revert n pre_s pre_n acc.
  induction s as [| s_i s' IH]; intros n pre_s pre_n [num den] Hlen; simpl.
  - reflexivity.
  - rewrite getitem_middle. simpl.
    destruct n as [| n_i n']; simpl.
    + rewrite app_nil_r, Hlen, getitem_end. reflexivity.
    + rewrite Hlen, getitem_middle. simpl.
      unfold truediv, gws_raises. simpl.
      destruct (negb (is_np s_i || is_np n_i) && is_zero (val n_i)); simpl.
      * reflexivity.
      * specialize (IH n' (pre_s ++ [s_i]) (pre_n ++ [n_i])).
        rewrite <- !app_assoc, length_app in IH. simpl in IH.
        rewrite Nat.add_1_r in IH. rewrite <- Hlen. apply IH.
        rewrite !length_app. simpl. lia.
Qed.

Lemma gws_for_zip (s n : list pynum) (acc : float64 * float64) :
  gws_for s n (seq 0 (length s)) acc = gws_zip s n acc.
Proof. apply (gws_for_zip_gen s n [] []). reflexivity. Qed.

Lemma gws_unfold (s n : list pynum) :
  generalised_welch_satterthwaite s n =
  (acc <- gws_zip s n (Fin 0, Fin 0) ;;
   Ok (fdiv (np_power2 (fst acc)) (snd acc))).
Proof. unfold generalised_welch_satterthwaite. now rewrite gws_for_zip. Qed.

(** With as many sizes as variances, the loop raises exactly when some
    group divides two plain Python numbers by zero, and otherwise adds up
    the groups' contributions. *)
Lemma gws_zip_sums (s n : list pynum) (acc : float64 * float64) :
  length s = length n ->
  gws_zip s n acc =
  if existsb gws_raises (combine s n) then Raise ZeroDivisionError
  else Ok (fadd (fst acc) (fsum (map gws_num (combine s n))),
           fadd (snd acc) (fsum (map gws_den (combine s n)))).
Proof.
  revert n acc.
  induction s as [| s_i s' IH]; intros [| n_i n'] [num den] Hlen;
    simpl in Hlen; try discriminate.
  - simpl. now rewrite !fadd_0_r.
  - cbn [gws_zip combine existsb map fsum fold_right fst snd].
    destruct (gws_raises (s_i, n_i)); simpl; [reflexivity |].
    rewrite IH by lia. cbn [fst snd].
    destruct (existsb gws_raises (combine s' n')); [reflexivity |].
    now rewrite !fadd_assoc.
Qed.

Lemma existsb_perm {A} (f : A -> bool) (l1 l2 : list A) :
  Permutation l1 l2 -> existsb f l1 = existsb f l2.
Proof.
  induction 1; simpl.
  - reflexivity.
  - now rewrite IHPermutation.
  - destruct (f x), (f y); reflexivity.
  - congruence.
Qed.

Lemma is_zero_fin_false (b : R) : b <> 0 -> is_zero (Fin b) = false.
Proof. intros Hb. simpl. destruct (Req_dec_T b 0); [contradiction | reflexivity]. Qed.

(** The contributions of one group whose variance and size are real
    numbers, the size above one. *)
Lemma gws_group_fin (s_i n_i : pynum) (a b : R) :
  val s_i = Fin a -> val n_i = Fin b -> 1 < b ->
  gws_raises (s_i, n_i) = false /\
  gws_num (s_i, n_i) = Fin (a / b) /\
  gws_den (s_i, n_i) = Fin (a * a / ((b - 1) * b * b)).
Proof.
  intros Hs Hn Hb.
  unfold gws_raises, gws_num, gws_den. cbn [fst snd].
  rewrite Hs, Hn. repeat split.
  - rewrite is_zero_fin_false by lra. apply andb_false_r.
  - apply fdiv_fin. lra.
  - assert (Hpos : 0 < (b - 1) * b * b)
      by (repeat apply Rmult_lt_0_compat; lra).
    unfold np_power2. now rewrite fsub_fin, !fmul_fin, fdiv_fin by lra.
Qed.

Lemma gws_groups_fin (s n : list pynum) (sv nv : list R) :
  np_array s = map Fin sv -> np_array n = map Fin nv ->
  length sv = length nv -> Forall (fun b => 1 < b) nv ->
  existsb gws_raises (combine s n) = false /\
  map gws_num (combine s n)
  = map Fin (map (fun p => fst p / snd p) (combine sv nv)) /\
  map gws_den (combine s n)
  = map Fin (map (fun p => fst p * fst p / ((snd p - 1) * snd p * snd p))
                 (combine sv nv)).
Proof.
  revert n sv nv.
  induction s as [| s_i s' IH]; intros n sv nv Hs Hn Hlen Hgt.
  - destruct sv; [| discriminate]. simpl. auto.
  - destruct sv as [| a sv']; [discriminate |].
    destruct nv as [| b nv']; [discriminate |].
    destruct n as [| n_i n']; [discriminate |].
    unfold np_array in Hs, Hn. simpl in Hs, Hn, Hlen.
    injection Hs as Hs Hs'. injection Hn as Hn Hn'.
    inversion Hgt as [| ? ? Hb Hgt']; subst.
    destruct (gws_group_fin s_i n_i a b Hs Hn Hb) as (Hr & Hnum & Hden).
    destruct (IH n' sv' nv' Hs' Hn' ltac:(lia) Hgt') as (IHr & IHnum & IHden).
    cbn [combine existsb map fst snd].
    rewrite Hr, IHr, Hnum, Hden, IHnum, IHden.
    auto.
Qed.

(** On real variances and real sizes above one the function returns the
    quotient of the square of its first sum by its second sum. *)
Lemma gws_fin (s n : list pynum) (sv nv : list R) :
  np_array s = map Fin sv ->
  np_array n = map Fin nv ->
  length sv = length nv ->
  Forall (fun b => 1 < b) nv ->
  generalised_welch_satterthwaite s n
  = Ok (fdiv (Fin (loop_numerator sv nv * loop_numerator sv nv))
             (Fin (loop_denominator sv nv))).
Proof.
  intros Hs Hn Hlen Hgt.
  assert (Hl : length s = length n).
  { apply (f_equal (@length _)) in Hs, Hn. unfold np_array in Hs, Hn.
    rewrite !length_map in Hs, Hn. lia. }
  destruct (gws_groups_fin s n sv nv Hs Hn Hlen Hgt) as (Hr & Hnum & Hden).
  rewrite gws_unfold, gws_zip_sums by exact Hl.
  rewrite Hr, Hnum, Hden, !fsum_fin. cbn [bind fst snd].
  rewrite !fadd_0_l. unfold np_power2. now rewrite fmul_fin.
Qed.

Lemma loop_numerator_psi (sv nv : list R) :
  loop_numerator sv nv = Rsum (map psi (combine sv nv)).
Proof. reflexivity. Qed.

(** The denominator term of the loop is the term of the equation. *)
Lemma loop_denominator_psi (sv nv : list R) :
  Forall (fun b => 1 < b) nv ->
  loop_denominator sv nv = welch_denominator sv nv.
Proof.
  unfold loop_denominator, welch_denominator. revert nv.
  induction sv as [| a sv IH]; intros [| b nv] Hgt; try reflexivity.
  inversion Hgt as [| ? ? Hb Hgt']; subst.
  cbn [combine map Rsum fold_right]. f_equal.
  - unfold psi. cbn [fst snd]. field. lra.
  - now apply IH.
Qed.



Lemma welch_term_nonneg (a b : R) :
  1 < b -> 0 <= psi (a, b) ^ 2 / (b - 1).
Proof.
  intros Hb. apply Rmult_le_pos; [apply pow2_ge_0 |].
  apply Rlt_le, Rinv_0_lt_compat. lra.
Qed.

Lemma welch_term_pos (a b : R) :
  0 < a -> 1 < b -> 0 < psi (a, b) ^ 2 / (b - 1).
Proof.
  intros Ha Hb. unfold psi. cbn [fst snd].
  apply Rmult_lt_0_compat; [| apply Rinv_0_lt_compat; lra].
  apply pow_lt. apply Rmult_lt_0_compat; [lra |].
  apply Rinv_0_lt_compat; lra.
Qed.

Lemma welch_denominator_nonneg (sv nv : list R) :
  Forall (fun b => 1 < b) nv -> 0 <= welch_denominator sv nv.
Proof.
  unfold welch_denominator. revert nv.
  induction sv as [| a sv IH]; intros [| b nv] Hn;
    cbn [combine map Rsum fold_right]; try lra.
  inversion Hn as [| ? ? Hb Hn']; subst.
  specialize (IH nv Hn'). pose proof (welch_term_nonneg a b Hb) as Ht.
  cbn [snd]. unfold Rsum in IH. lra.
Qed.

(** When some variance is positive (and none negative) the denominator of
    the equation is positive and the result is the real quotient. *)
Lemma welch_denominator_pos (sv nv : list R) :
  length sv = length nv ->
  Forall (fun a => 0 <= a) sv -> Forall (fun b => 1 < b) nv ->
  Exists (fun a => 0 < a) sv ->
  0 < welch_denominator sv nv.
Proof.
  revert nv. induction sv as [| a sv IH]; intros [| b nv] Hlen Hs Hn Hex;
    simpl in Hlen; try discriminate; try (inversion Hex; fail).
  inversion Hs as [| ? ? Ha Hs']; inversion Hn as [| ? ? Hb Hn']; subst.
  assert (Hcons : welch_denominator (a :: sv) (b :: nv)
                  = psi (a, b) ^ 2 / (b - 1) + welch_denominator sv nv)
    by reflexivity.
  rewrite Hcons.
  pose proof (welch_denominator_nonneg sv nv Hn') as Hrest.
  inversion Hex as [? ? Hpos | ? ? Hex']; subst.
  - pose proof (welch_term_pos a b Hpos Hb). lra.
  - specialize (IH nv ltac:(lia) Hs' Hn' Hex').
    pose proof (welch_term_nonneg a b Hb). lra.
Qed.

Lemma welch_satterthwaite_formula_real (sv nv : list R) :
  length sv = length nv ->
  Forall (fun a => 0 <= a) sv -> Forall (fun b => 1 < b) nv ->
  Exists (fun a => 0 < a) sv ->
  welch_satterthwaite_formula sv nv
  = Fin (welch_numerator sv nv / welch_denominator sv nv).
Proof.
  intros Hlen Hs Hn Hex. unfold welch_satterthwaite_formula.
  apply fdiv_fin.
  pose proof (welch_denominator_pos sv nv Hlen Hs Hn Hex). lra.
Qed.



(* ================================================================== *)
(** * Order and ceiling *)
(* ================================================================== *)

Lemma fle_fin (a b : R) : fle (Fin a) (Fin b) = true <-> a <= b.
Proof. simpl. destruct (Rle_dec a b); split; intros; auto; discriminate. Qed.

Lemma fle_fin_true (a b : R) : a <= b -> fle (Fin a) (Fin b) = true.
Proof. apply fle_fin. Qed.

Lemma fle_fin_false (a b : R) : b < a -> fle (Fin a) (Fin b) = false.
Proof. intros H. simpl. destruct (Rle_dec a b); [lra | reflexivity]. Qed.

Lemma fgt_fin (a b : R) : fgt (Fin a) (Fin b) = true <-> b < a.
Proof. simpl. destruct (Rlt_dec b a); split; intros; auto; discriminate. Qed.

Lemma fle_refl (x : float64) : x <> NaN -> fle x x = true.
Proof.
  destruct x; intros H; try reflexivity; try congruence.
  apply fle_fin_true. lra.
Qed.

Lemma fle_trans (x y z : float64) :
  fle x y = true -> fle y z = true -> fle x z = true.
Proof.
  destruct x, y, z; simpl; try congruence.
  destruct (Rle_dec r r0), (Rle_dec r0 r1), (Rle_dec r r1);
    try congruence; lra.
Qed.

Lemma fle_not_nan_l (x y : float64) : fle x y = true -> x <> NaN.
Proof. destruct x; simpl; congruence. Qed.

Lemma fle_not_nan_r (x y : float64) : fle x y = true -> y <> NaN.
Proof. destruct x, y; simpl; congruence. Qed.

(** Without NaN, a failed test [x <= y] is [x > y]. *)
Lemma fle_false_fgt (x y : float64) :
  x <> NaN -> y <> NaN -> fle x y = false -> fgt x y = true.
Proof.
  destruct x, y; simpl; try congruence.
  intros _ _. destruct (Rle_dec r r0), (Rlt_dec r0 r); try congruence. lra.
Qed.

Lemma fgt_fle_false (x y : float64) : fgt x y = true -> fle x y = false.
Proof.
  destruct x, y; simpl; try congruence.
  destruct (Rle_dec r r0), (Rlt_dec r0 r); try congruence. lra.
Qed.

Lemma np_ceil_fin (r : R) (z : Z) :
  IZR z - 1 < r <= IZR z -> np_ceil (Fin r) = Fin (IZR z).
Proof. intros H. simpl. now rewrite (Zceil_eq z r H). Qed.

Lemma np_ceil_int (z : Z) : np_ceil (Fin (IZR z)) = Fin (IZR z).
Proof. apply np_ceil_fin. lra. Qed.

Lemma fle_np_ceil (x : float64) : x <> NaN -> fle x (np_ceil x) = true.
Proof.
  destruct x; intros H; try reflexivity; try congruence.
  simpl. destruct (Rle_dec r (IZR (Zceil r))) as [| Hn]; [reflexivity |].
  exfalso. apply Hn. apply Zceil_bound.
Qed.

Lemma np_ceil_not_nan (x : float64) : x <> NaN -> np_ceil x <> NaN.
Proof. destruct x; simpl; congruence. Qed.

(** A ceiling is an integer or one of the special values. *)
Lemma np_ceil_shape (x : float64) :
  (exists z : Z, np_ceil x = Fin (IZR z)) \/
  np_ceil x = PInf \/ np_ceil x = NInf \/ np_ceil x = NaN.
Proof. destruct x; simpl; eauto. Qed.

(* ================================================================== *)
(** * The iterative procedure *)
(* ================================================================== *)

(** Called on an array of sizes as long as [s_squared], the equation never
    raises: every division has a numpy operand. *)
Lemma gws_raises_repeat (s : list pynum) (x : float64) (k : nat) :
  existsb gws_raises (combine s (np_repeat x k)) = false.
Proof.
  revert k. induction s as [| s_i s' IH]; intros [| k]; simpl; auto.
  unfold gws_raises at 1. cbn [fst snd is_np].
  rewrite orb_true_r. simpl. apply IH.
Qed.

Lemma gws_repeat_ok (s : list pynum) (x : float64) :
  exists v, generalised_welch_satterthwaite s (np_repeat x (length s)) = Ok v.
Proof.
  rewrite gws_unfold, gws_zip_sums
    by (unfold np_repeat; now rewrite repeat_length).
  rewrite gws_raises_repeat. simpl. eauto.
Qed.

Section SolverFacts.
Context {K : Type}.
Variable lookup_s : K -> list pynum.
Variable rhs_func : K -> option float64 -> result float64.
Variable kwargs : K.

#[local] Abbreviation step_of := (while_step lookup_s rhs_func kwargs).
#[local] Abbreviation loop := (while_loop lookup_s rhs_func kwargs).
#[local] Abbreviation after := (state_after lookup_s rhs_func kwargs).
#[local] Abbreviation cands := (candidates lookup_s rhs_func kwargs).
#[local] Abbreviation ok := (consistent lookup_s rhs_func kwargs).

Lemma nu_at_ok (x : float64) : exists v, nu_at lookup_s kwargs x = Ok v.
Proof. apply gws_repeat_ok. Qed.

Lemma while_step_continue (st st' : loop_state) :
  step_of st = Continue st' ->
  fle (n_min st) (rhs_t_quantile st) = true /\
  n_min st' = np_ceil (rhs_t_quantile st) /\
  nu_at lookup_s kwargs (n_min st') = Ok (nu st') /\
  rhs_func kwargs (Some (nu st')) = Ok (rhs_t_quantile st').
Proof.
  unfold while_step.
  destruct (fle (n_min st) (rhs_t_quantile st)); [| discriminate].
  destruct (nu_at lookup_s kwargs (np_ceil (rhs_t_quantile st))) as [v |] eqn:Hv;
    [| discriminate].
  destruct (rhs_func kwargs (Some v)) as [r |] eqn:Hr; [| discriminate].
  intros H. injection H as <-. simpl. auto.
Qed.

Lemma while_step_return (st : loop_state) (n : float64) :
  step_of st = Return n ->
  n = n_min st /\ fle (n_min st) (rhs_t_quantile st) = false.
Proof.
  unfold while_step.
  destruct (fle (n_min st) (rhs_t_quantile st)).
  - destruct (nu_at lookup_s kwargs (np_ceil (rhs_t_quantile st))) as [v |];
      [| discriminate].
    destruct (rhs_func kwargs (Some v)); discriminate.
  - intros H. injection H as <-. auto.
Qed.

(** The only error the loop can end with is one raised by [rhs_func]. *)
Lemma while_step_fail (st : loop_state) (e : pyerr) :
  step_of st = Fail e ->
  exists v, rhs_func kwargs (Some v) = Raise e.
Proof.
  unfold while_step.
  destruct (fle (n_min st) (rhs_t_quantile st)); [| discriminate].
  destruct (nu_at_ok (np_ceil (rhs_t_quantile st))) as [v Hv]. rewrite Hv.
  destruct (rhs_func kwargs (Some v)) eqn:Hr; [discriminate |].
  intros H. injection H as <-. eauto.
Qed.

Lemma init_state_consistent (st : loop_state) :
  init_state lookup_s rhs_func kwargs = Ok st -> ok st.
Proof.
  unfold init_state, consistent.
  destruct (rhs_func kwargs None) as [r0 |]; [| discriminate]. simpl.
  destruct (nu_at lookup_s kwargs (np_ceil r0)) as [v |] eqn:Hv;
    [| discriminate]. simpl.
  destruct (rhs_func kwargs (Some v)) as [r |] eqn:Hr; [| discriminate].
  simpl. intros H. injection H as <-. simpl. eauto.
Qed.

Lemma while_step_consistent (st st' : loop_state) :
  step_of st = Continue st' -> ok st'.
Proof.
  intros H. apply while_step_continue in H as (_ & Hn & Hv & Hr).
  unfold consistent. eauto.
Qed.

Lemma state_after_consistent (k : nat) (st st' : loop_state) :
  ok st -> after k st = Some st' -> ok st'.
Proof.
  revert st. induction k as [| k IH]; intros st Hok; simpl.
  - intros H. now injection H as <-.
  - destruct (step_of st) as [st1 | |] eqn:Hs; try discriminate.
    apply IH. eapply while_step_consistent; eauto.
Qed.

(** The loop is still running after [fuel] tests exactly when it has
    completed [fuel] iterations. *)
Lemma while_loop_running (fuel : nat) (st : loop_state) :
  loop fuel st = None <-> exists st', after fuel st = Some st'.
Proof.
  revert st. induction fuel as [| fuel IH]; intros st; simpl.
  - split; eauto.
  - destruct (step_of st) as [st1 | n | e].
    + apply IH.
    + split; [discriminate | intros [? ?]; discriminate].
    + split; [discriminate | intros [? ?]; discriminate].
Qed.

(** A returned value is the candidate of a reached state that fails the
    loop test. *)
Lemma while_loop_returns (fuel : nat) (st : loop_state) (n : float64) :
  loop fuel st = Some (Ok n) ->
  exists k st', (k < fuel)%nat /\ after k st = Some st' /\
                n = n_min st' /\
                fle (n_min st') (rhs_t_quantile st') = false.
Proof.
  revert st. induction fuel as [| fuel IH]; intros st; simpl; [discriminate |].
  destruct (step_of st) as [st1 | m | e] eqn:Hs.
  - intros H. destruct (IH _ H) as (k & st' & Hk & Ha & Hn & Hf).
    exists (S k), st'. simpl. rewrite Hs. repeat split; auto. lia.
  - intros H. injection H as <-.
    apply while_step_return in Hs as [-> Hf].
    exists O, st. simpl. repeat split; auto. lia.
  - discriminate.
Qed.

(** More fuel does not change a result. *)
Lemma while_loop_more_fuel (fuel extra : nat) (st : loop_state)
    (r : result float64) :
  loop fuel st = Some r -> loop (fuel + extra) st = Some r.
Proof.
  revert st. induction fuel as [| fuel IH]; intros st; simpl; [discriminate |].
  destruct (step_of st); auto.
Qed.

(** Each iteration replaces the candidate by one at least as large. *)
Lemma while_step_nondecreasing (st st' : loop_state) :
  step_of st = Continue st' -> fle (n_min st) (n_min st') = true.
Proof.
  intros H. apply while_step_continue in H as (Hle & Hn & _).
  rewrite Hn. eapply fle_trans; [exact Hle |].
  apply fle_np_ceil. eapply fle_not_nan_r; eauto.
Qed.

Lemma state_after_nondecreasing (k : nat) (st st' : loop_state) :
  n_min st <> NaN ->
  after k st = Some st' -> fle (n_min st) (n_min st') = true.
Proof.
  revert st. induction k as [| k IH]; intros st Hnan; simpl.
  - intros H. injection H as <-. now apply fle_refl.
  - destruct (step_of st) as [st1 | |] eqn:Hs; try discriminate.
    intros H. pose proof (while_step_nondecreasing _ _ Hs) as Hle.
    eapply fle_trans; [exact Hle |].
    apply IH; [| exact H]. eapply fle_not_nan_r; eauto.
Qed.

Lemma candidates_sorted (k : nat) (st : loop_state) :
  Sorted fle_prop (cands k st).
Proof.
  revert st. induction k as [| k IH]; intros st; simpl.
  - repeat constructor.
  - destruct (step_of st) as [st1 | |] eqn:Hs; try (repeat constructor; fail).
    constructor; [apply IH |].
    destruct k; simpl; constructor;
      now apply while_step_nondecreasing.
Qed.
End SolverFacts.

(* ================================================================== *)
(** * A group of size one *)
(* ================================================================== *)

Lemma fsum_fin_or_pinf (l : list float64) :
  Forall fin_or_pinf l -> fin_or_pinf (fsum l).
Proof.
  induction 1 as [| d l Hd _ IH]; simpl.
  - right. eauto.
  - destruct Hd as [-> | [r ->]], IH as [-> | [r' ->]]; unfold fadd;
      try (left; reflexivity). right. eauto.
Qed.

Lemma fsum_pinf (l : list float64) :
  Forall fin_or_pinf l -> Exists (eq PInf) l -> fsum l = PInf.
Proof.
  induction 1 as [| d l Hd Hl IH]; intros Hex; inversion Hex; subst; simpl.
  - destruct (fsum_fin_or_pinf l Hl) as [-> | [r ->]]; reflexivity.
  - rewrite IH by assumption.
    destruct Hd as [-> | [r ->]]; reflexivity.
Qed.

Lemma inf_signed_pos (r : R) : 0 < r -> inf_signed r = PInf.
Proof.
  intros H. unfold inf_signed.
  destruct (Req_dec_T r 0); [lra |]. destruct (Rlt_dec 0 r); [reflexivity | lra].
Qed.

Lemma gws_group_size_ge_one (s_i n_i : pynum) (a b : R) :
  val s_i = Fin a -> val n_i = Fin b -> 0 < a -> 1 <= b ->
  gws_raises (s_i, n_i) = false /\
  gws_num (s_i, n_i) = Fin (a / b) /\
  fin_or_pinf (gws_den (s_i, n_i)) /\
  (b = 1 -> gws_den (s_i, n_i) = PInf).
Proof.
  intros Hs Hn Ha Hb.
  unfold gws_raises, gws_num, gws_den. cbn [fst snd].
  rewrite Hs, Hn. unfold np_power2. rewrite fsub_fin, !fmul_fin.
  assert (Hsq : 0 < a * a) by nra.
  split; [| split; [| split]].
  - rewrite is_zero_fin_false by lra. apply andb_false_r.
  - apply fdiv_fin. lra.
  - unfold fdiv. destruct (Req_dec_T ((b - 1) * b * b) 0).
    + left. now apply inf_signed_pos.
    + right. eauto.
  - intros ->. unfold fdiv.
    destruct (Req_dec_T ((1 - 1) * 1 * 1) 0); [| lra].
    now apply inf_signed_pos.
Qed.

Lemma gws_groups_size_ge_one (s n : list pynum) (sv nv : list R) :
  np_array s = map Fin sv -> np_array n = map Fin nv ->
  length sv = length nv ->
  Forall (fun a => 0 < a) sv -> Forall (fun b => 1 <= b) nv ->
  existsb gws_raises (combine s n) = false /\
  (exists nums, map gws_num (combine s n) = map Fin nums) /\
  Forall fin_or_pinf (map gws_den (combine s n)) /\
  (In 1 nv -> Exists (eq PInf) (map gws_den (combine s n))).
Proof.
  revert n sv nv.
  induction s as [| s_i s' IH]; intros n sv nv Hs Hn Hlen Hpos Hge.
  - destruct sv; [| discriminate]. destruct nv; [| discriminate].
    simpl. split; [| split; [| split]]; auto; [| contradiction].
    exists []. reflexivity.
  - destruct sv as [| a sv']; [discriminate |].
    destruct nv as [| b nv']; [discriminate |].
    destruct n as [| n_i n']; [discriminate |].
    unfold np_array in Hs, Hn. simpl in Hs, Hn, Hlen.
    injection Hs as Hs Hs'. injection Hn as Hn Hn'.
    inversion Hpos as [| ? ? Ha Hpos']; inversion Hge as [| ? ? Hb Hge']; subst.
    destruct (gws_group_size_ge_one s_i n_i a b Hs Hn Ha Hb)
      as (Hr & Hnum & Hden & Hone).
    destruct (IH n' sv' nv' Hs' Hn' ltac:(lia) Hpos' Hge')
      as (IHr & [nums IHnum] & IHden & IHone).
    cbn [combine existsb map]. rewrite Hr, IHr, Hnum, IHnum.
    repeat split; auto.
    + exists (a / b :: nums). reflexivity.
    + intros [-> | Hin].
      * left. symmetry. now apply Hone.
      * right. now apply IHone.
Qed.

(** With positive variances, sizes at least one and some size equal to
    one, no exception is raised, the first sum is a real number and the
    second is the positive infinity that the group of size one adds. *)
Lemma gws_size_one_sums (s n : list pynum) (sv nv : list R) :
  np_array s = map Fin sv -> np_array n = map Fin nv ->
  length sv = length nv ->
  Forall (fun a => 0 < a) sv -> Forall (fun b => 1 <= b) nv ->
  In 1 nv ->
  exists A, gws_zip s n (Fin 0, Fin 0) = Ok (Fin A, PInf).
Proof.
  intros Hs Hn Hlen Hpos Hge Hin.
  assert (Hl : length s = length n).
  { apply (f_equal (@length _)) in Hs, Hn. unfold np_array in Hs, Hn.
    rewrite !length_map in Hs, Hn. lia. }
  destruct (gws_groups_size_ge_one s n sv nv Hs Hn Hlen Hpos Hge)
    as (Hr & [nums Hnum] & Hden & Hone).
  rewrite gws_zip_sums by exact Hl.
  rewrite Hr, Hnum, fsum_fin, (fsum_pinf _ Hden (Hone Hin)).
  cbn [fst snd]. rewrite fadd_0_l. eauto.
Qed.

(** C4, as amended.  [generalised_welch_satterthwaite] does not validate
    the sizes.  When the variances are positive, every size is at least
    one and some size is exactly one, it raises nothing and returns 0. *)
Theorem gws_size_one_returns_zero (s n : list pynum) (sv nv : list R) :
  np_array s = map Fin sv -> np_array n = map Fin nv ->
  length sv = length nv ->
  Forall (fun a => 0 < a) sv -> Forall (fun b => 1 <= b) nv ->
  In 1 nv ->
  generalised_welch_satterthwaite s n = Ok (Fin 0).
Proof.
  intros Hs Hn Hlen Hpos Hge Hin.
  destruct (gws_size_one_sums s n sv nv Hs Hn Hlen Hpos Hge Hin) as [A HA].
  rewrite gws_unfold, HA. cbn [bind fst snd].
  unfold np_power2. rewrite fmul_fin. reflexivity.
Qed.

Lemma gws_size_one_returns_zero_witness :
  generalised_welch_satterthwaite
    [PyNum (Fin 0.25); PyNum (Fin 2)] [PyNum (Fin 100); PyNum (Fin 1)]
  = Ok (Fin 0).
Proof.
  apply (gws_size_one_returns_zero _ _ [0.25; 2] [100; 1]).
  - reflexivity.
  - reflexivity.
  - reflexivity.
  - repeat constructor; lra.
  - repeat constructor; lra.
  - simpl. auto.
Defined.

(** C4 as stated fails: a size of one raises no error at all. *)
Lemma gws_size_one_no_error :
  ~ (forall (s n : list pynum) (b : R),
        length s = length n ->
        In (Fin b) (np_array n) -> b <= 1 ->
        exists e, generalised_welch_satterthwaite s n = Raise e).
Proof.
  intros H.
  destruct (H [PyNum (Fin 1)] [PyNum (Fin 1)] 1) as [e He].
  - reflexivity.
  - simpl. auto.
  - lra.
  - destruct (gws_size_one_sums [PyNum (Fin 1)] [PyNum (Fin 1)] [1] [1])
      as [A HA]; try reflexivity; try (repeat constructor; lra).
    rewrite gws_unfold, HA in He. discriminate.
Qed.

(* ================================================================== *)
(** * The iteration has no cap *)
(* ================================================================== *)

Section Divergence.
Context {K : Type}.
Variable lookup_s : K -> list pynum.
Variable rhs_func : K -> option float64 -> result float64.
Variable kwargs : K.

Lemma state_after_test (k : nat) (st st' : loop_state) :
  state_after lookup_s rhs_func kwargs (S k) st <> None ->
  state_after lookup_s rhs_func kwargs k st = Some st' ->
  fle (n_min st') (rhs_t_quantile st') = true.
Proof.
  revert st. induction k as [| k IH]; intros st Hnext Hk.
  - simpl in Hk. injection Hk as <-. simpl in Hnext.
    destruct (while_step lookup_s rhs_func kwargs st) as [st1 | |] eqn:Hs;
      try congruence.
    now apply while_step_continue in Hs.
  - simpl in Hk.
    change (state_after lookup_s rhs_func kwargs (S (S k)) st)
      with (match while_step lookup_s rhs_func kwargs st with
            | Continue st1 => state_after lookup_s rhs_func kwargs (S k) st1
            | _ => None
            end) in Hnext.
    destruct (while_step lookup_s rhs_func kwargs st) as [st1 | |];
      try congruence.
    eapply IH; eauto.
Qed.

Lemma diverges_iff (st : loop_state) :
  (forall fuel, while_loop lookup_s rhs_func kwargs fuel st = None) <->
  (forall k, exists st',
      state_after lookup_s rhs_func kwargs k st = Some st' /\
      fle (n_min st') (rhs_t_quantile st') = true).
Proof.
  split.
  - intros Hrun k.
    destruct (proj1 (while_loop_running _ _ _ k st) (Hrun k)) as [st' Hk].
    exists st'. split; [exact Hk |].
    destruct (proj1 (while_loop_running _ _ _ (S k) st) (Hrun (S k)))
      as [st2 Hk2].
    eapply state_after_test; eauto. congruence.
  - intros Hall fuel. apply while_loop_running.
    destruct (Hall fuel) as [st' [Hk _]]. eauto.
Qed.
Lemma stalled_step (st : loop_state) :
  consistent lookup_s rhs_func kwargs st ->
  fle (n_min st) (rhs_t_quantile st) = true ->
  np_ceil (rhs_t_quantile st) = n_min st ->
  while_step lookup_s rhs_func kwargs st = Continue st.
Proof.
  intros (Hv & Hr & _) Hle Hceil. unfold while_step.
  rewrite Hle, Hceil, Hv, Hr. now destruct st.
Qed.

Lemma stalled_loop (fuel : nat) (st : loop_state) :
  while_step lookup_s rhs_func kwargs st = Continue st ->
  while_loop lookup_s rhs_func kwargs fuel st = None.
Proof.
  intros Hstep. induction fuel as [| fuel IH]; simpl; [reflexivity |].
  now rewrite Hstep.
Qed.
End Divergence.

(** C3, as amended.  [get_min_sample_sizes] has no iteration cap and no
    error of its own: once the statements before the loop have run, it
    keeps running, whatever the number of iterations, exactly when the test
    [n_min <= rhs_t_quantile] holds in every state the loop reaches.  It
    does so in particular when the right-hand side computed from the
    first candidate is that candidate: the loop then repeats the same
    state forever. *)
Theorem get_min_sample_sizes_runs_while_test_holds {K : Type}
    (lookup_s : K -> list pynum)
    (rhs_func : K -> option float64 -> result float64) (kwargs : K)
    (st : loop_state) :
  init_state lookup_s rhs_func kwargs = Ok st ->
  ((forall fuel, get_min_sample_sizes lookup_s rhs_func kwargs fuel = None)
   <->
   (forall k, exists st',
       state_after lookup_s rhs_func kwargs k st = Some st' /\
       fle (n_min st') (rhs_t_quantile st') = true)) /\
  (fle (n_min st) (rhs_t_quantile st) = true ->
   np_ceil (rhs_t_quantile st) = n_min st ->
   forall fuel, get_min_sample_sizes lookup_s rhs_func kwargs fuel = None).
Proof.
  intros Hinit. unfold get_min_sample_sizes. rewrite Hinit. split.
  - apply diverges_iff.
  - intros Hle Hceil fuel. apply stalled_loop.
    apply stalled_step; auto. now apply init_state_consistent.
Qed.

Lemma get_min_sample_sizes_runs_while_test_holds_witness :
  get_min_sample_sizes (fun _ => [PyNum (Fin 1)]) (rhs_constant (Fin 2)) tt
    1000 = None.
Proof.
  generalize 1000%nat.
  destruct (nu_at_ok (fun _ : unit => [PyNum (Fin 1)]) tt (Fin 2)) as [v Hv].
  assert (Hceil : np_ceil (Fin 2) = Fin 2)
    by (change 2 with (IZR 2); apply np_ceil_int).
  apply (proj2 (get_min_sample_sizes_runs_while_test_holds
                  (fun _ : unit => [PyNum (Fin 1)]) (rhs_constant (Fin 2)) tt
                  {| n_min := Fin 2; nu := v; rhs_t_quantile := Fin 2 |}
                  ltac:(unfold init_state, rhs_constant; cbn [bind];
                        rewrite Hceil, Hv; reflexivity))).
  - apply fle_fin_true. lra.
  - exact Hceil.
Defined.

(** A right-hand side that is constantly the integer 2 stalls the loop:
    the candidate is 2, the test [2 <= 2] holds, and the body recomputes
    the same candidate. *)
Lemma constant_rhs_stalls (s : list pynum) (fuel : nat) (st : loop_state) :
  n_min st = Fin 2 -> rhs_t_quantile st = Fin 2 ->
  while_loop (fun _ => s) (rhs_constant (Fin 2)) tt fuel st = None.
Proof.
  revert st. induction fuel as [| fuel IH]; intros st Hn Hr; simpl;
    [reflexivity |].
  unfold while_step. rewrite Hn, Hr, fle_fin_true by lra.
  change 2 with (IZR 2). rewrite np_ceil_int.
  destruct (nu_at_ok (fun _ : unit => s) tt (Fin (IZR 2))) as [v Hv].
  rewrite Hv. unfold rhs_constant. apply IH; reflexivity.
Qed.

Lemma constant_rhs_never_returns (s : list pynum) (fuel : nat) :
  get_min_sample_sizes (fun _ => s) (rhs_constant (Fin 2)) tt fuel = None.
Proof.
  unfold get_min_sample_sizes, init_state, rhs_constant. cbn [bind].
  change 2 with (IZR 2). rewrite np_ceil_int.
  destruct (nu_at_ok (fun _ : unit => s) tt (Fin (IZR 2))) as [v Hv].
  rewrite Hv. cbn [bind]. apply constant_rhs_stalls; reflexivity.
Qed.

(** C3 as stated fails: no number of iterations bounds the procedure on
    every input. *)
Lemma get_min_sample_sizes_has_no_cap :
  ~ (exists cap : nat,
        forall (rhs_func : unit -> option float64 -> result float64)
               (s : list pynum),
          get_min_sample_sizes (fun _ => s) rhs_func tt cap <> None).
Proof.
  intros [cap H].
  apply (H (rhs_constant (Fin 2)) [PyNum (Fin 1)]).
  apply constant_rhs_never_returns.
Qed.

(* ================================================================== *)
(** * What a returned value satisfies *)
(* ================================================================== *)

Section Returned.
Context {K : Type}.
Variable lookup_s : K -> list pynum.
Variable rhs_func : K -> option float64 -> result float64.
Variable kwargs : K.

Lemma init_state_inv (st : loop_state) :
  init_state lookup_s rhs_func kwargs = Ok st ->
  exists r0, rhs_func kwargs None = Ok r0 /\ n_min st = np_ceil r0.
Proof.
  unfold init_state.
  destruct (rhs_func kwargs None) as [r0 |]; [| discriminate]. cbn [bind].
  destruct (nu_at lookup_s kwargs (np_ceil r0)) as [v |]; [| discriminate].
  cbn [bind].
  destruct (rhs_func kwargs (Some v)) as [r |]; [| discriminate].
  cbn [bind]. intros H. injection H as <-. eauto.
Qed.

Lemma returned_inv (fuel : nat) (n : float64) :
  get_min_sample_sizes lookup_s rhs_func kwargs fuel = Some (Ok n) ->
  exists st k st',
    init_state lookup_s rhs_func kwargs = Ok st /\
    state_after lookup_s rhs_func kwargs k st = Some st' /\
    n = n_min st' /\
    fle (n_min st') (rhs_t_quantile st') = false /\
    consistent lookup_s rhs_func kwargs st'.
Proof.
  unfold get_min_sample_sizes.
  destruct (init_state lookup_s rhs_func kwargs) as [st |] eqn:Hinit;
    [| discriminate].
  intros H. apply while_loop_returns in H as (k & st' & _ & Hk & Hn & Hf).
  exists st, k, st'.
  split; [reflexivity |]. split; [exact Hk |]. split; [exact Hn |].
  split; [exact Hf |].
  eapply state_after_consistent; [| exact Hk].
  now apply init_state_consistent.
Qed.

(** The returned value fails the loop test against the right-hand side
    computed from it. *)
Lemma returned_fails_test (fuel : nat) (n : float64) :
  get_min_sample_sizes lookup_s rhs_func kwargs fuel = Some (Ok n) ->
  exists v r,
    nu_at lookup_s kwargs n = Ok v /\
    rhs_func kwargs (Some v) = Ok r /\
    fle n r = false.
Proof.
  intros H.
  destruct (returned_inv fuel n H)
    as (st & k & st' & _ & _ & -> & Hf & Hv & Hr & _).
  eauto.
Qed.

(** Hence, NaN apart, it exceeds that right-hand side. *)
Lemma returned_exceeds_rhs (fuel : nat) (n : float64) :
  get_min_sample_sizes lookup_s rhs_func kwargs fuel = Some (Ok n) ->
  exists v r,
    nu_at lookup_s kwargs n = Ok v /\
    rhs_func kwargs (Some v) = Ok r /\
    (n <> NaN -> r <> NaN -> fgt n r = true).
Proof.
  intros H. destruct (returned_fails_test fuel n H) as (v & r & Hv & Hr & Hf).
  exists v, r. repeat split; auto.
  intros Hn Hrn. now apply fle_false_fgt.
Qed.
End Returned.


Lemma rhs_infinite_returns_inf (s : list pynum) :
  get_min_sample_sizes (fun _ => s) rhs_infinite tt 1 = Some (Ok PInf).
Proof.
  unfold get_min_sample_sizes, init_state. cbn [rhs_infinite bind np_ceil].
  destruct (nu_at_ok (fun _ : unit => s) tt PInf) as [v Hv].
  rewrite Hv. cbn [bind]. reflexivity.
Qed.



(* ================================================================== *)
(** * An effect so large that one sample per group is returned *)
(* ================================================================== *)

Lemma nu_at_one_quarter_variances :
  nu_at eq_s_squared large_effect_kwargs (Fin 1) = Ok (Fin 0).
Proof.
  unfold nu_at. cbn [large_effect_kwargs eq_s_squared].
  destruct (gws_size_one_sums quarter_variances
              (np_repeat (Fin 1) (length quarter_variances))
              [0.25; 0.25; 0.25; 0.25] [1; 1; 1; 1])
    as [A HA]; try reflexivity; try (repeat constructor; lra).
  rewrite gws_unfold, HA. cbn [bind fst snd].
  unfold np_power2. rewrite fmul_fin. reflexivity.
Qed.

(** C2.  The call get_min_sample_sizes_equal(s_squared=[0.25]*4, theta=3,
    significance_level=0.05, min_power=0.8) returns 1 although 1 does not
    satisfy n_min > rhs(params, nu(n_min)): with one sample per group the
    degrees of freedom come out as 0, the t quantiles are NaN there, and
    the loop test [1 <= NaN] is false at once.  What is assumed of the
    quantile functions holds of scipy's: the normal quantiles at 0.95 and
    0.2 differ by about 2.49, and [t.ppf] is NaN for 0 degrees of
    freedom. *)
Theorem equal_returns_one_sample_per_group {Q : Quantiles}
    (z1 z2 : R) (fuel : nat) :
  norm_ppf (fsub (Fin 1) (Fin 0.05)) = Fin z1 ->
  norm_ppf (fsub (Fin 1) (Fin 0.8)) = Fin z2 ->
  0 < z1 - z2 <= 3 ->
  (forall p, t_ppf p (Fin 0) = NaN) ->
  get_min_sample_sizes_equal (S fuel) quarter_variances
    (Fin 3) (Fin 0.05) (Fin 0.8) = Some (Ok (Fin 1)) /\
  nu_at eq_s_squared large_effect_kwargs (Fin 1) = Ok (Fin 0) /\
  rhs_value_equal large_effect_kwargs (Some (Fin 0)) = Ok NaN /\
  fgt (Fin 1) NaN = false.
Proof.
  intros Hz1 Hz2 Hz Ht.
  assert (Hrhs_t : rhs_value_equal large_effect_kwargs (Some (Fin 0)) = Ok NaN).
  { unfold rhs_value_equal, t_quantile_diff.
    cbn [large_effect_kwargs eq_significance_level eq_min_power].
    now rewrite !Ht. }
  assert (Hrhs_n : exists x, 0 < x <= 1 /\
            rhs_value_equal large_effect_kwargs None = Ok (Fin x)).
  { unfold rhs_value_equal, norm_quantile_diff.
    cbn [large_effect_kwargs eq_significance_level eq_min_power
         eq_s_squared eq_theta].
    rewrite Hz1, Hz2, np_sum_fsum.
    change (np_array quarter_variances)
      with (map Fin [0.25; 0.25; 0.25; 0.25]).
    rewrite fsum_fin. unfold np_power2.
    rewrite fsub_fin, !fmul_fin, fdiv_fin by lra.
    eexists. split; [| reflexivity].
    unfold Rsum. cbn [fold_right]. split.
    - apply Rmult_lt_0_compat; [nra | lra].
    - assert ((z1 - z2) * (z1 - z2) <= 9) by nra. lra. }
  destruct Hrhs_n as (x & Hx & Hrhs_n).
  split; [| auto using nu_at_one_quarter_variances].
  unfold get_min_sample_sizes_equal, get_min_sample_sizes, init_state.
  fold large_effect_kwargs. rewrite Hrhs_n. cbn [bind].
  change 1 with (IZR 1) in Hx.
  rewrite (np_ceil_fin x 1) by lra.
  rewrite nu_at_one_quarter_variances. cbn [bind].
  rewrite Hrhs_t. cbn [bind]. reflexivity.
Qed.

Lemma equal_returns_one_sample_per_group_witness :
  @get_min_sample_sizes_equal uniform_quantiles 1 quarter_variances
    (Fin 3) (Fin 0.05) (Fin 0.8) = Some (Ok (Fin 1)) /\
  nu_at eq_s_squared large_effect_kwargs (Fin 1) = Ok (Fin 0) /\
  @rhs_value_equal uniform_quantiles large_effect_kwargs (Some (Fin 0))
  = Ok NaN /\
  fgt (Fin 1) NaN = false.
Proof.
  apply (@equal_returns_one_sample_per_group uniform_quantiles
           (4 * (1 + Ropp 0.05) - 2) (4 * (1 + Ropp 0.8) - 2) 0).
  - reflexivity.
  - reflexivity.
  - lra.
  - intros p. simpl. destruct (Rlt_dec 0 0); [lra | reflexivity].
Defined.

(* ================================================================== *)
(** * The procedure depends on its right-hand side through its values *)
(* ================================================================== *)

Section Extensionality.
Context {K1 K2 : Type}.
Variable lookup1 : K1 -> list pynum.
Variable rhs1 : K1 -> option float64 -> result float64.
Variable kw1 : K1.
Variable lookup2 : K2 -> list pynum.
Variable rhs2 : K2 -> option float64 -> result float64.
Variable kw2 : K2.
Hypothesis same_s : lookup1 kw1 = lookup2 kw2.
Hypothesis same_rhs : forall nu, rhs1 kw1 nu = rhs2 kw2 nu.

Lemma nu_at_ext (x : float64) : nu_at lookup1 kw1 x = nu_at lookup2 kw2 x.
Proof. unfold nu_at. now rewrite same_s. Qed.

Lemma while_step_ext (st : loop_state) :
  while_step lookup1 rhs1 kw1 st = while_step lookup2 rhs2 kw2 st.
Proof.
  unfold while_step. rewrite nu_at_ext.
  destruct (fle (n_min st) (rhs_t_quantile st)); [| reflexivity].
  destruct (nu_at lookup2 kw2 (np_ceil (rhs_t_quantile st))); [| reflexivity].
  now rewrite same_rhs.
Qed.

Lemma while_loop_ext (fuel : nat) (st : loop_state) :
  while_loop lookup1 rhs1 kw1 fuel st = while_loop lookup2 rhs2 kw2 fuel st.
Proof.
  revert st. induction fuel as [| fuel IH]; intros st; simpl;
    [reflexivity |].
  rewrite while_step_ext.
  destruct (while_step lookup2 rhs2 kw2 st); auto.
Qed.

Lemma get_min_sample_sizes_ext (fuel : nat) :
  get_min_sample_sizes lookup1 rhs1 kw1 fuel
  = get_min_sample_sizes lookup2 rhs2 kw2 fuel.
Proof.
  unfold get_min_sample_sizes, init_state.
  rewrite same_rhs.
  destruct (rhs2 kw2 None) as [r0 |]; [| reflexivity]. cbn [bind].
  rewrite nu_at_ext.
  destruct (nu_at lookup2 kw2 (np_ceil r0)) as [v |]; [| reflexivity].
  cbn [bind]. rewrite same_rhs.
  destruct (rhs2 kw2 (Some v)); [| reflexivity].
  cbn [bind]. apply while_loop_ext.
Qed.
End Extensionality.

(* ================================================================== *)
(** * Ratios that are all equal *)
(* ================================================================== *)

Lemma fdiv_fmul_cancel (x : float64) (c : R) :
  c <> 0 -> fdiv (fmul x (Fin c)) (Fin c) = x.
Proof.
  intros Hc. destruct x as [a | | |]; unfold fmul, fdiv, inf_signed.
  - destruct (Req_dec_T c 0); [contradiction |]. f_equal. now field.
  - destruct (Req_dec_T c 0); [contradiction |].
    destruct (Rlt_dec 0 c), (Rle_dec 0 c); try reflexivity; lra.
  - destruct (Req_dec_T (- c) 0); [lra |].
    destruct (Rlt_dec 0 (- c)), (Rle_dec 0 c); try reflexivity; lra.
  - reflexivity.
Qed.

Lemma uniform_ratio_terms (xs ks : list float64) (c : R) :
  c <> 0 -> length ks = length xs -> Forall (eq (Fin c)) ks ->
  map (fun p => fdiv (fst p) (snd p))
      (combine (map (fun s => fmul s (Fin c)) xs) ks) = xs.
Proof.
  intros Hc. revert ks.
  induction xs as [| x xs IH]; intros [| k ks] Hlen Hall; simpl in *;
    try discriminate; [reflexivity |].
  inversion Hall as [| ? ? Hk Hall']; subst.
  now rewrite fdiv_fmul_cancel, IH by (auto; lia).
Qed.

Lemma rhs_ratioed_uniform {Q : Quantiles} (s ratio : list pynum) (c : R)
    (theta alpha power : float64) (nu : option float64) :
  c <> 0 -> ratio <> [] -> length ratio = length s ->
  Forall (fun k => val k = Fin c) ratio ->
  rhs_value_ratioed
    {| ra_s_squared := s; ra_ratio := ratio; ra_theta := theta;
       ra_significance_level := alpha; ra_min_power := power |} nu
  = rhs_value_equal
    {| eq_s_squared := s; eq_theta := theta;
       eq_significance_level := alpha; eq_min_power := power |} nu.
Proof.
  intros Hc Hne Hlen Hall.
  unfold rhs_value_ratioed, rhs_value_equal.
  cbn [ra_s_squared ra_ratio ra_theta ra_significance_level ra_min_power
       eq_s_squared eq_theta eq_significance_level eq_min_power].
  destruct ratio as [| k0 ratio']; [congruence |].
  cbn [getitem nth_error bind].
  inversion Hall as [| ? ? Hk0 _]; subst. rewrite Hk0.
  unfold broadcast.
  assert (Hl : length (map (fun s0 => fmul s0 (Fin c)) (np_array s))
               = length (np_array (k0 :: ratio'))).
  { unfold np_array. rewrite !length_map. lia. }
  rewrite Hl, Nat.eqb_refl.
  rewrite uniform_ratio_terms; [reflexivity | exact Hc | |].
  - unfold np_array. rewrite !length_map. exact Hlen.
  - unfold np_array. clear -Hall.
    induction Hall as [| k l Hk _ IH]; simpl; constructor; auto.
Qed.



(* ================================================================== *)
(** * Rescaling the ratios *)
(* ================================================================== *)

Ltac decide_reals :=
  repeat match goal with
    | |- context [Req_dec_T ?a ?b] => destruct (Req_dec_T a b)
    | |- context [Rlt_dec ?a ?b] => destruct (Rlt_dec a b)
    | |- context [Rle_dec ?a ?b] => destruct (Rle_dec a b)
    end.

Lemma fmul_scale_shape (c : R) (k : float64) :
  0 < c ->
  match k with
  | Fin b => fmul (Fin c) k = Fin (c * b)
  | _ => fmul (Fin c) k = k
  end.
Proof.
  intros Hc. destruct k; unfold fmul, inf_signed; try reflexivity;
    decide_reals; try reflexivity; lra.
Qed.

(** One term of the sum of the ratioed right-hand side is unchanged when
    both ratios in it are multiplied by the same positive constant. *)
Lemma ratio_term_rescale (c : R) (x k1 kg : float64) :
  0 < c ->
  fdiv (fmul x (fmul (Fin c) k1)) (fmul (Fin c) kg)
  = fdiv (fmul x k1) kg.
Proof.
  intros Hc.
  pose proof (fmul_scale_shape c k1 Hc) as H1.
  pose proof (fmul_scale_shape c kg Hc) as Hg.
  destruct k1 as [b | | |], kg as [d | | |]; rewrite ?H1, ?Hg;
    try reflexivity;
    destruct x as [a | | |]; try reflexivity;
    unfold fmul, fdiv, inf_signed.
  all: decide_reals; try reflexivity; try (exfalso; nra);
    try (f_equal; field; lra).
Qed.

Lemma broadcast_rescale (c : R) (r0 : float64) (xs ks : list float64) :
  0 < c ->
  broadcast fdiv (map (fun s => fmul s (fmul (Fin c) r0)) xs)
                 (map (fmul (Fin c)) ks)
  = broadcast fdiv (map (fun s => fmul s r0) xs) ks.
Proof.
  intros Hc. unfold broadcast. rewrite !length_map.
  destruct (length xs =? length ks)%nat.
  - f_equal. revert ks.
    induction xs as [| x xs IH]; intros [| k ks]; simpl; try reflexivity.
    now rewrite ratio_term_rescale, IH.
  - destruct (length ks =? 1)%nat eqn:Hk.
    + destruct ks as [| k [| ? ?]]; try discriminate. cbn [map hd].
      f_equal. rewrite !map_map. apply map_ext.
      intros x. now apply ratio_term_rescale.
    + destruct (length xs =? 1)%nat eqn:Hx; [| reflexivity].
      destruct xs as [| x [| ? ?]]; try discriminate. cbn [map hd].
      f_equal. rewrite !map_map. apply map_ext.
      intros k. now apply ratio_term_rescale.
Qed.

Lemma rhs_ratioed_rescale {Q : Quantiles} (s ratio ratio' : list pynum)
    (c : R) (theta alpha power : float64) (nu : option float64) :
  0 < c ->
  np_array ratio' = map (fmul (Fin c)) (np_array ratio) ->
  rhs_value_ratioed
    {| ra_s_squared := s; ra_ratio := ratio'; ra_theta := theta;
       ra_significance_level := alpha; ra_min_power := power |} nu
  = rhs_value_ratioed
    {| ra_s_squared := s; ra_ratio := ratio; ra_theta := theta;
       ra_significance_level := alpha; ra_min_power := power |} nu.
Proof.
  intros Hc Hscaled.
  unfold rhs_value_ratioed.
  cbn [ra_s_squared ra_ratio ra_theta ra_significance_level ra_min_power].
  destruct ratio as [| k0 ratio], ratio' as [| k0' ratio'];
    try discriminate; [reflexivity |].
  cbn [getitem nth_error bind].
  rewrite Hscaled.
  unfold np_array in Hscaled. simpl in Hscaled.
  injection Hscaled as Hk0 _. rewrite Hk0.
  now rewrite broadcast_rescale.
Qed.



(* ================================================================== *)
(** * Errors of the ratioed procedure *)
(* ================================================================== *)

Section NoError.
Context {K : Type}.
Variable lookup_s : K -> list pynum.
Variable rhs_func : K -> option float64 -> result float64.
Variable kwargs : K.
Hypothesis rhs_total : forall nu, exists r, rhs_func kwargs nu = Ok r.

Lemma while_loop_no_error (fuel : nat) (st : loop_state) (e : pyerr) :
  while_loop lookup_s rhs_func kwargs fuel st <> Some (Raise e).
Proof.
  revert st. induction fuel as [| fuel IH]; intros st; simpl;
    [discriminate |].
  destruct (while_step lookup_s rhs_func kwargs st) as [st' | n | e']
    eqn:Hs; [apply IH | discriminate |].
  apply while_step_fail in Hs as [v Hv].
  destruct (rhs_total (Some v)) as [r Hr]. congruence.
Qed.

Lemma get_min_sample_sizes_no_error (fuel : nat) (e : pyerr) :
  get_min_sample_sizes lookup_s rhs_func kwargs fuel <> Some (Raise e).
Proof.
  unfold get_min_sample_sizes, init_state.
  destruct (rhs_total None) as [r0 ->]. cbn [bind].
  destruct (nu_at_ok lookup_s kwargs (np_ceil r0)) as [v ->]. cbn [bind].
  destruct (rhs_total (Some v)) as [r ->]. cbn [bind].
  apply while_loop_no_error.
Qed.
End NoError.

Lemma broadcast_ok (f : float64 -> float64 -> float64) (a b : list float64) :
  length a = length b \/ length b = 1%nat \/ length a = 1%nat ->
  exists l, broadcast f a b = Ok l.
Proof.
  intros H. unfold broadcast.
  destruct (length a =? length b)%nat eqn:E1; [eauto |].
  destruct (length b =? 1)%nat eqn:E2; [eauto |].
  destruct (length a =? 1)%nat eqn:E3; [eauto |].
  apply Nat.eqb_neq in E1, E2, E3. lia.
Qed.

Lemma broadcast_error (f : float64 -> float64 -> float64) (a b : list float64) :
  length a <> length b -> length b <> 1%nat -> length a <> 1%nat ->
  broadcast f a b = Raise ValueError.
Proof.
  intros H1 H2 H3. unfold broadcast.
  apply Nat.eqb_neq in H1, H2, H3. now rewrite H1, H2, H3.
Qed.

(** C8, as amended.  [get_min_sample_sizes_ratioed] fails with an
    assertion error, before anything is computed, when the ratio vector is
    empty.  The lengths of ratio and s_squared are not compared: when they
    differ and neither is one, numpy's ValueError for arrays of different
    shapes is raised in the first evaluation of the right-hand side; when
    they differ and one of them is one, that array is broadcast and no
    error is raised at all. *)
Theorem ratioed_errors {Q : Quantiles} (fuel : nat)
    (s ratio : list pynum) (theta alpha power : float64) :
  (ratio = [] ->
   get_min_sample_sizes_ratioed fuel s ratio theta alpha power
   = Some (Raise (AssertionError ratio_assert_msg))) /\
  (ratio <> [] -> length ratio <> length s ->
   length ratio <> 1%nat -> length s <> 1%nat ->
   get_min_sample_sizes_ratioed fuel s ratio theta alpha power
   = Some (Raise ValueError)) /\
  (ratio <> [] -> length ratio = 1%nat \/ length s = 1%nat ->
   forall e,
     get_min_sample_sizes_ratioed fuel s ratio theta alpha power
     <> Some (Raise e)).
Proof.
  unfold get_min_sample_sizes_ratioed. repeat split.
  - intros ->. reflexivity.
  - intros Hne Hlen Hr Hs.
    destruct ratio as [| k0 ratio']; [congruence |].
    cbn [length Nat.ltb Nat.leb].
    unfold get_min_sample_sizes, init_state, rhs_value_ratioed.
    cbn [ra_s_squared ra_ratio getitem nth_error bind].
    rewrite broadcast_error; [reflexivity | | |];
      unfold np_array; rewrite ?length_map; auto.
  - intros Hne Hone e.
    destruct ratio as [| k0 ratio']; [congruence |].
    cbn [length Nat.ltb Nat.leb].
    apply get_min_sample_sizes_no_error.
    intros nu. unfold rhs_value_ratioed.
    cbn [ra_s_squared ra_ratio getitem nth_error bind].
    destruct (broadcast_ok fdiv
                (map (fun s0 => fmul s0 (val k0)) (np_array s))
                (np_array (k0 :: ratio'))) as [l ->].
    + unfold np_array. rewrite !length_map. simpl in *. lia.
    + cbn [bind]. eauto.
Qed.

Lemma ratioed_errors_witness :
  @get_min_sample_sizes_ratioed uniform_quantiles 0 quarter_variances []
    (Fin 0.005) (Fin 0.05) (Fin 0.8)
  = Some (Raise (AssertionError ratio_assert_msg)).
Proof.
  apply (proj1 (@ratioed_errors uniform_quantiles 0 quarter_variances []
                  (Fin 0.005) (Fin 0.05) (Fin 0.8))).
  reflexivity.
Defined.

(* ================================================================== *)
(** * Running the procedures on the stand-in quantile functions *)
(* ================================================================== *)

Ltac fin_eval :=
  repeat first
    [ rewrite fadd_fin | rewrite fsub_fin | rewrite fmul_fin
    | rewrite fdiv_fin by lra ].

Lemma Fin_eq (a b : R) : a = b -> Fin a = Fin b.
Proof. now intros ->. Qed.

Lemma uniform_norm_quantile_diff :
  @norm_quantile_diff uniform_quantiles (Fin 0.05) (Fin 0.8) = Fin 9.
Proof.
  unfold norm_quantile_diff, np_power2. cbn [norm_ppf uniform_quantiles].
  fin_eval. cbn [uniform_ppf]. fin_eval. apply Fin_eq. lra.
Qed.

Lemma uniform_t_quantile_diff (v : R) :
  0 < v ->
  @t_quantile_diff uniform_quantiles (Fin 0.05) (Fin 0.8) (Fin v) = Fin 9.
Proof.
  intros Hv. unfold t_quantile_diff, np_power2.
  cbn [t_ppf uniform_quantiles]. unfold uniform_t_ppf.
  destruct (Rlt_dec 0 v); [| contradiction].
  fin_eval. cbn [uniform_ppf]. fin_eval. apply Fin_eq. lra.
Qed.

Lemma short_ratio_terms :
  broadcast fdiv
    (map (fun s => fmul s (Fin 1)) (np_array (ra_s_squared short_ratio_kwargs)))
    (np_array (ra_ratio short_ratio_kwargs))
  = Ok [Fin 0.25; Fin 0.25].
Proof.
  unfold broadcast.
  cbn [short_ratio_kwargs ra_s_squared ra_ratio np_array map val length
       Nat.eqb hd].
  fin_eval. repeat f_equal; lra.
Qed.

Lemma short_ratio_rhs_normal :
  @rhs_value_ratioed uniform_quantiles short_ratio_kwargs None
  = Ok (Fin (9 / 2)).
Proof.
  unfold rhs_value_ratioed.
  change (getitem (ra_ratio short_ratio_kwargs) 0) with (Ok (PyNum (Fin 1))).
  cbn [bind val]. rewrite short_ratio_terms. cbn [bind].
  cbn [short_ratio_kwargs ra_significance_level ra_min_power ra_theta].
  rewrite uniform_norm_quantile_diff, np_sum_fsum.
  unfold np_power2. cbn [fsum fold_right]. fin_eval.
  f_equal. apply Fin_eq. lra.
Qed.

Lemma short_ratio_rhs_t (v : R) :
  0 < v ->
  @rhs_value_ratioed uniform_quantiles short_ratio_kwargs (Some (Fin v))
  = Ok (Fin (9 / 2)).
Proof.
  intros Hv. unfold rhs_value_ratioed.
  change (getitem (ra_ratio short_ratio_kwargs) 0) with (Ok (PyNum (Fin 1))).
  cbn [bind val]. rewrite short_ratio_terms. cbn [bind].
  cbn [short_ratio_kwargs ra_significance_level ra_min_power ra_theta].
  rewrite (uniform_t_quantile_diff v Hv), np_sum_fsum.
  unfold np_power2. cbn [fsum fold_right]. fin_eval.
  f_equal. apply Fin_eq. lra.
Qed.

Lemma short_ratio_nu :
  nu_at ra_s_squared short_ratio_kwargs (Fin 5) = Ok (Fin 8).
Proof.
  unfold nu_at.
  cbn [short_ratio_kwargs ra_s_squared length np_repeat repeat].
  rewrite (gws_fin _ _ [0.25; 0.25] [5; 5]);
    try reflexivity; try (repeat constructor; lra).
  unfold loop_numerator, loop_denominator.
  cbn [combine map Rsum fold_right fst snd].
  rewrite fdiv_fin by lra. f_equal. apply Fin_eq. lra.
Qed.

(** With a single ratio for two groups the ratio is broadcast and a
    sample size is returned. *)
Lemma short_ratio_returns :
  @get_min_sample_sizes_ratioed uniform_quantiles 1
    [PyNum (Fin 0.25); PyNum (Fin 0.25)] [PyNum (Fin 1)]
    (Fin 1) (Fin 0.05) (Fin 0.8)
  = Some (Ok (Fin 5)).
Proof.
  unfold get_min_sample_sizes_ratioed. cbn [length Nat.ltb Nat.leb].
  fold short_ratio_kwargs.
  unfold get_min_sample_sizes, init_state.
  rewrite short_ratio_rhs_normal. cbn [bind].
  assert (Hceil : np_ceil (Fin (9 / 2)) = Fin 5)
    by (change 5 with (IZR 5); apply np_ceil_fin; lra).
  rewrite Hceil, short_ratio_nu. cbn [bind].
  rewrite short_ratio_rhs_t by lra. cbn [bind].
  cbn [while_loop]. unfold while_step. cbn [n_min rhs_t_quantile].
  rewrite fle_fin_false by lra. reflexivity.
Qed.

(** C8 as stated fails: lengths that differ raise no error when one of
    them is one. *)
Lemma ratioed_length_mismatch_returns :
  ~ (forall (Q : Quantiles) (fuel : nat) (s ratio : list pynum)
            (theta alpha power : float64),
        ratio = [] \/ length ratio <> length s ->
        exists e,
          get_min_sample_sizes_ratioed fuel s ratio theta alpha power
          = Some (Raise e)).
Proof.
  intros H.
  destruct (H uniform_quantiles 1%nat
              [PyNum (Fin 0.25); PyNum (Fin 0.25)] [PyNum (Fin 1)]
              (Fin 1) (Fin 0.05) (Fin 0.8)) as [e He].
  - right. simpl. lia.
  - rewrite short_ratio_returns in He. discriminate.
Qed.

(* ================================================================== *)
(** * From the sample size back to the effect *)
(* ================================================================== *)

Lemma Rsum_nonneg (l : list R) : Forall (fun a => 0 <= a) l -> 0 <= Rsum l.
Proof. induction 1; simpl; lra. Qed.

Lemma Rsum_div (l : list R) (n : R) :
  Rsum (map (fun a => a / n) l) = Rsum l / n.
Proof.
  induction l as [| a l IH]; simpl.
  - unfold Rdiv. ring.
  - rewrite IH. unfold Rdiv. ring.
Qed.

Lemma np_array_repeat (x : float64) (k : nat) :
  np_array (np_repeat x k) = repeat x k.
Proof.
  unfold np_array, np_repeat.
  induction k as [| k IH]; simpl; [reflexivity |]. now rewrite IH.
Qed.

Lemma terms_over_size (sv : list R) (n : R) :
  n <> 0 ->
  map (fun p => fdiv (fst p) (snd p))
      (combine (map Fin sv) (repeat (Fin n) (length sv)))
  = map Fin (map (fun a => a / n) sv).
Proof.
  intros Hn. induction sv as [| a sv IH]; simpl; [reflexivity |].
  now rewrite fdiv_fin, IH.
Qed.

Lemma get_min_detectable_effect_after_equal {Q : Quantiles} (fuel : nat)
    (s : list pynum) (sv : list R) (theta : R) (alpha power : float64)
    (n : R) (v : float64) (t1 t2 : R) :
  np_array s = map Fin sv ->
  Forall (fun a => 0 <= a) sv ->
  theta <> 0 ->
  get_min_sample_sizes_equal fuel s (Fin theta) alpha power
  = Some (Ok (Fin n)) ->
  generalised_welch_satterthwaite s (np_repeat (Fin n) (length s)) = Ok v ->
  t_ppf (fsub (Fin 1) alpha) v = Fin t1 ->
  t_ppf (fsub (Fin 1) power) v = Fin t2 ->
  get_min_detectable_effect s (np_repeat (Fin n) (length s)) alpha power
  = Ok (Fin ((t1 - t2) * sqrt (Rsum sv / n))) /\
  ((t1 - t2) * sqrt (Rsum sv / n)) * ((t1 - t2) * sqrt (Rsum sv / n))
  < theta * theta.
Proof.
  intros Hs Hnonneg Htheta Hret Hv Ht1 Ht2.
  pose proof (Rsum_nonneg sv Hnonneg) as Hsum.
  assert (Hsq : 0 < theta * theta) by nra.
  (* the returned size exceeds the right-hand side at its own nu *)
  unfold get_min_sample_sizes_equal in Hret.
  apply returned_fails_test in Hret as (v' & r & Hv' & Hr & Hf).
  unfold nu_at in Hv'. cbn [eq_s_squared] in Hv'.
  rewrite Hv in Hv'. injection Hv' as <-.
  unfold rhs_value_equal, t_quantile_diff in Hr.
  cbn [eq_s_squared eq_theta eq_significance_level eq_min_power] in Hr.
  rewrite Ht1, Ht2, Hs, np_sum_fsum, fsum_fin in Hr.
  unfold np_power2 in Hr.
  rewrite fsub_fin, !fmul_fin, fdiv_fin in Hr by lra.
  injection Hr as <-.
  assert (Hlt : (t1 - t2) * (t1 - t2) * Rsum sv / (theta * theta) < n).
  { destruct (Rle_lt_dec n
                ((t1 - t2) * (t1 - t2) * Rsum sv / (theta * theta)))
      as [Hle | Hgt]; [| exact Hgt].
    rewrite fle_fin_true in Hf by exact Hle. discriminate. }
  assert (Hrhs : 0 <= (t1 - t2) * (t1 - t2) * Rsum sv / (theta * theta)).
  { apply Rmult_le_pos; [| apply Rlt_le, Rinv_0_lt_compat; lra].
    apply Rmult_le_pos; [apply (Rle_0_sqr (t1 - t2)) | lra]. }
  assert (Hn : 0 < n) by lra.
  assert (Hquot : 0 <= Rsum sv / n).
  { apply Rmult_le_pos; [lra | apply Rlt_le, Rinv_0_lt_compat; lra]. }
  assert (Hlen : length s = length sv).
  { apply (f_equal (@length _)) in Hs. unfold np_array in Hs.
    now rewrite !length_map in Hs. }
  split.
  - unfold get_min_detectable_effect. rewrite Hv. cbn [bind].
    unfold broadcast. rewrite np_array_repeat, Hs.
    rewrite length_map, repeat_length, Hlen, Nat.eqb_refl.
    rewrite terms_over_size by lra. cbn [bind].
    rewrite np_sum_fsum, fsum_fin, Rsum_div, Ht1, Ht2.
    unfold np_sqrt.
    destruct (Rle_dec 0 (Rsum sv / n)); [| contradiction].
    reflexivity.
  - replace ((t1 - t2) * sqrt (Rsum sv / n) * ((t1 - t2) * sqrt (Rsum sv / n)))
      with ((t1 - t2) * (t1 - t2) * (sqrt (Rsum sv / n) * sqrt (Rsum sv / n)))
      by ring.
    rewrite sqrt_sqrt by exact Hquot.
    apply (Rmult_lt_compat_r (theta * theta)) in Hlt; [| exact Hsq].
    replace ((t1 - t2) * (t1 - t2) * Rsum sv / (theta * theta) * (theta * theta))
      with ((t1 - t2) * (t1 - t2) * Rsum sv) in Hlt by (field; lra).
    apply (Rmult_lt_reg_r n); [exact Hn |].
    replace ((t1 - t2) * (t1 - t2) * (Rsum sv / n) * n)
      with ((t1 - t2) * (t1 - t2) * Rsum sv) by (field; lra).
    lra.
Qed.


Lemma two_groups_nu :
  generalised_welch_satterthwaite
    [PyNum (Fin 0.25); PyNum (Fin 0.25)] (np_repeat (Fin 5) 2)
  = Ok (Fin 8).
Proof.
  cbn [np_repeat repeat].
  rewrite (gws_fin _ _ [0.25; 0.25] [5; 5]);
    try reflexivity; try (repeat constructor; lra).
  unfold loop_numerator, loop_denominator.
  cbn [combine map Rsum fold_right fst snd].
  rewrite fdiv_fin by lra. f_equal. apply Fin_eq. lra.
Qed.

Lemma two_groups_rhs_normal (theta : R) :
  theta * theta = 1 ->
  @rhs_value_equal uniform_quantiles (two_groups_kwargs theta) None
  = Ok (Fin (9 / 2)).
Proof.
  intros Hth. unfold rhs_value_equal.
  cbn [two_groups_kwargs eq_s_squared eq_theta eq_significance_level
       eq_min_power].
  rewrite uniform_norm_quantile_diff, np_sum_fsum.
  unfold np_power2. cbn [np_array map val fsum fold_right]. fin_eval.
  f_equal. apply Fin_eq. rewrite Hth. lra.
Qed.

Lemma two_groups_rhs_t (theta v : R) :
  theta * theta = 1 -> 0 < v ->
  @rhs_value_equal uniform_quantiles (two_groups_kwargs theta) (Some (Fin v))
  = Ok (Fin (9 / 2)).
Proof.
  intros Hth Hv. unfold rhs_value_equal.
  cbn [two_groups_kwargs eq_s_squared eq_theta eq_significance_level
       eq_min_power].
  rewrite (uniform_t_quantile_diff v Hv), np_sum_fsum.
  unfold np_power2. cbn [np_array map val fsum fold_right]. fin_eval.
  f_equal. apply Fin_eq. rewrite Hth. lra.
Qed.

(** The equal-size procedure on two groups of variance 0.25 returns 5 for
    the effect 1 and for the effect -1. *)
Lemma two_groups_returns (theta : R) :
  theta * theta = 1 ->
  @get_min_sample_sizes_equal uniform_quantiles 1
    [PyNum (Fin 0.25); PyNum (Fin 0.25)] (Fin theta) (Fin 0.05) (Fin 0.8)
  = Some (Ok (Fin 5)).
Proof.
  intros Hth.
  unfold get_min_sample_sizes_equal. fold (two_groups_kwargs theta).
  unfold get_min_sample_sizes, init_state.
  rewrite two_groups_rhs_normal by exact Hth. cbn [bind].
  assert (Hceil : np_ceil (Fin (9 / 2)) = Fin 5)
    by (change 5 with (IZR 5); apply np_ceil_fin; lra).
  rewrite Hceil. unfold nu_at.
  cbn [two_groups_kwargs eq_s_squared length].
  rewrite two_groups_nu. cbn [bind].
  fold (two_groups_kwargs theta).
  rewrite two_groups_rhs_t by (auto; lra). cbn [bind].
  cbn [while_loop]. unfold while_step. cbn [n_min rhs_t_quantile].
  rewrite fle_fin_false by lra. reflexivity.
Qed.

Lemma uniform_t_ppf_at (x v : R) :
  0 < v ->
  @t_ppf uniform_quantiles (fsub (Fin 1) (Fin x)) (Fin v)
  = Fin (4 * (1 - x) - 2).
Proof.
  intros Hv. cbn [t_ppf uniform_quantiles]. unfold uniform_t_ppf.
  destruct (Rlt_dec 0 v); [| contradiction]. reflexivity.
Qed.


(** The effect enters the equal-size procedure through its square. *)
Lemma equal_ignores_sign {Q : Quantiles} (fuel : nat) (s : list pynum)
    (theta : R) (alpha power : float64) :
  get_min_sample_sizes_equal fuel s (Fin (- theta)) alpha power
  = get_min_sample_sizes_equal fuel s (Fin theta) alpha power.
Proof.
  unfold get_min_sample_sizes_equal.
  apply get_min_sample_sizes_ext; [reflexivity |].
  intros nu. unfold rhs_value_equal.
  cbn [eq_s_squared eq_theta eq_significance_level eq_min_power].
  unfold np_power2. rewrite !fmul_fin.
  do 3 f_equal. ring.
Qed.

Lemma no_tolerance_for_both_signs (tol m theta : R) :
  tol < 1 -> theta <> 0 ->
  ~ (approx_equal tol m theta /\ approx_equal tol m (- theta)).
Proof.
  unfold approx_equal. intros Htol Hth [H1 H2].
  rewrite Rabs_Ropp in H2.
  assert (Hpos : 0 < Rabs theta) by now apply Rabs_pos_lt.
  assert (Htri : 2 * Rabs theta <= Rabs (m - theta) + Rabs (m - - theta)).
  { replace (2 * Rabs theta) with (Rabs (2 * theta))
      by (rewrite Rabs_mult, (Rabs_right 2); lra).
    replace (2 * theta) with ((m - - theta) - (m - theta)) by ring.
    pose proof (Rabs_triang (m - - theta) (- (m - theta))) as Ht.
    rewrite Rabs_Ropp in Ht. unfold Rminus at 1. lra. }
  nra.
Qed.

(** Whatever the quantile functions: a sample size returned for theta is
    returned for -theta as well, and the one effect computed back from it
    cannot be close to both. *)
Lemma round_trip_fails_for_a_sign {Q : Quantiles} (fuel : nat)
    (s : list pynum) (theta : R) (alpha power n : float64) (m tol : R) :
  tol < 1 -> theta <> 0 ->
  get_min_sample_sizes_equal fuel s (Fin theta) alpha power = Some (Ok n) ->
  get_min_detectable_effect s (np_repeat n (length s)) alpha power
  = Ok (Fin m) ->
  get_min_sample_sizes_equal fuel s (Fin (- theta)) alpha power
  = Some (Ok n) /\
  ~ (approx_equal tol m theta /\ approx_equal tol m (- theta)).
Proof.
  intros Htol Hth Hret _. split.
  - now rewrite equal_ignores_sign.
  - now apply no_tolerance_for_both_signs.
Qed.

(** The effect computed back from the sample size 5 of two groups of
    variance 0.25, for the effect 1 or -1. *)
Lemma two_groups_effect (theta : R) :
  theta * theta = 1 ->
  exists m,
    @get_min_detectable_effect uniform_quantiles
      [PyNum (Fin 0.25); PyNum (Fin 0.25)] (np_repeat (Fin 5) 2)
      (Fin 0.05) (Fin 0.8) = Ok (Fin m) /\
    0 <= m <= 0.95.
Proof.
  intros Hth.
  assert (Hne : theta <> 0) by (intros ->; lra).
  destruct (@get_min_detectable_effect_after_equal uniform_quantiles 1
              [PyNum (Fin 0.25); PyNum (Fin 0.25)] [0.25; 0.25] theta
              (Fin 0.05) (Fin 0.8) 5 (Fin 8)
              (4 * (1 - 0.05) - 2) (4 * (1 - 0.8) - 2))
    as [Hmde _];
    try reflexivity; try (repeat constructor; lra); try exact Hne;
    try (apply two_groups_returns; exact Hth); try exact two_groups_nu;
    try (apply uniform_t_ppf_at; lra).
  eexists. split; [exact Hmde |].
  pose proof (sqrt_pos (Rsum [0.25; 0.25] / 5)) as Hroot.
  assert (Hsq : sqrt (Rsum [0.25; 0.25] / 5) * sqrt (Rsum [0.25; 0.25] / 5)
                = 0.1).
  { rewrite sqrt_sqrt; unfold Rsum; cbn [fold_right]; lra. }
  set (root := sqrt (Rsum [0.25; 0.25] / 5)) in *.
  assert (Hsmall : root <= 0.95 / 3) by nra.
  lra.
Qed.


(* ================================================================== *)
(** * The outputs recorded in the notebook *)
(* ================================================================== *)

(** generalised_welch_satterthwaite([0.25, 0.1, 0.2, 2], [100]*4) is
    recorded as 156.53434650455929; the exact value is 257499/1645. *)
Lemma gws_notebook_output :
  generalised_welch_satterthwaite
    [PyNum (Fin 0.25); PyNum (Fin 0.1); PyNum (Fin 0.2); PyNum (Fin 2)]
    [PyNum (Fin 100); PyNum (Fin 100); PyNum (Fin 100); PyNum (Fin 100)]
  = Ok (Fin (257499 / 1645)) /\
  156.534346 < 257499 / 1645 < 156.534347.
Proof.
  split; [| lra].
  rewrite (gws_fin _ _ [0.25; 0.1; 0.2; 2] [100; 100; 100; 100]);
    try reflexivity; try (repeat constructor; lra).
  unfold loop_numerator, loop_denominator.
  cbn [combine map Rsum fold_right fst snd].
  rewrite fdiv_fin by lra. f_equal. apply Fin_eq. lra.
Qed.

Lemma quarter_variances_nu (n : R) :
  1 < n ->
  generalised_welch_satterthwaite quarter_variances (np_repeat (Fin n) 4)
  = Ok (Fin (4 * (n - 1))).
Proof.
  intros Hn. cbn [np_repeat repeat].
  rewrite (gws_fin _ _ [0.25; 0.25; 0.25; 0.25] [n; n; n; n]);
    try reflexivity; try (repeat constructor; lra).
  unfold loop_numerator, loop_denominator.
  cbn [combine map Rsum fold_right fst snd].
  assert (Hden : 0.25 * 0.25 / ((n - 1) * n * n) +
                 (0.25 * 0.25 / ((n - 1) * n * n) +
                  (0.25 * 0.25 / ((n - 1) * n * n) +
                   (0.25 * 0.25 / ((n - 1) * n * n) + 0)))
                 = 0.25 / ((n - 1) * n * n)) by (unfold Rdiv; lra).
  rewrite Hden.
  assert (Hpos : 0 < 0.25 / ((n - 1) * n * n)).
  { apply Rmult_lt_0_compat; [lra |]. apply Rinv_0_lt_compat.
    repeat apply Rmult_lt_0_compat; lra. }
  rewrite fdiv_fin by lra. f_equal. apply Fin_eq.
  replace 0.25 with (1 / 4) by lra. field. lra.
Qed.

(** get_min_sample_sizes_equal(s_squared=[0.25]*4, theta=0.005,
    significance_level=0.05, min_power=0.8) is recorded as 247303.0.  The
    procedure returns that value, without entering the loop body, for all
    quantile functions whose squared quantile differences lie where
    scipy's do: about 6.182557 for the normal distribution and about
    6.182566 for Student's t with 4 * 247302 degrees of freedom. *)
Lemma equal_notebook_output {Q : Quantiles} (q_norm q_t : R) (fuel : nat) :
  norm_quantile_diff (Fin 0.05) (Fin 0.8) = Fin q_norm ->
  6.18255 < q_norm < 6.18257 ->
  t_quantile_diff (Fin 0.05) (Fin 0.8) (Fin (4 * (247303 - 1))) = Fin q_t ->
  q_t < 6.18257 ->
  get_min_sample_sizes_equal (S fuel) quarter_variances
    (Fin 0.005) (Fin 0.05) (Fin 0.8)
  = Some (Ok (Fin 247303)).
Proof.
  intros Hn Hqn Ht Hqt.
  unfold get_min_sample_sizes_equal, get_min_sample_sizes, init_state.
  unfold rhs_value_equal at 1.
  cbn [eq_s_squared eq_theta eq_significance_level eq_min_power].
  rewrite Hn, np_sum_fsum.
  change (np_array quarter_variances) with (map Fin [0.25; 0.25; 0.25; 0.25]).
  rewrite fsum_fin. unfold np_power2. rewrite !fmul_fin, fdiv_fin by lra.
  cbn [bind Rsum fold_right].
  rewrite (np_ceil_fin _ 247303) by lra.
  unfold nu_at. cbn [eq_s_squared].
  change (length quarter_variances) with 4%nat.
  rewrite quarter_variances_nu by lra. cbn [bind].
  unfold rhs_value_equal at 1.
  cbn [eq_s_squared eq_theta eq_significance_level eq_min_power].
  rewrite Ht, np_sum_fsum.
  change (np_array quarter_variances) with (map Fin [0.25; 0.25; 0.25; 0.25]).
  rewrite fsum_fin. unfold np_power2. rewrite !fmul_fin, fdiv_fin by lra.
  cbn [bind Rsum fold_right while_loop]. unfold while_step.
  cbn [n_min rhs_t_quantile].
  rewrite fle_fin_false by lra. reflexivity.
Qed.

(** get_min_sample_sizes_ratioed(s_squared=[0.25]*4, ratio=[1, 1, 5, 5],
    theta=0.005, significance_level=0.05, min_power=0.8) is recorded as
    148382.0; the same bounds on the quantile differences give it. *)
Lemma ratioed_notebook_output {Q : Quantiles} (q_norm q_t : R) (fuel : nat) :
  norm_quantile_diff (Fin 0.05) (Fin 0.8) = Fin q_norm ->
  6.18255 < q_norm < 6.18257 ->
  t_quantile_diff (Fin 0.05) (Fin 0.8) (Fin (4 * (148382 - 1))) = Fin q_t ->
  q_t < 6.18257 ->
  get_min_sample_sizes_ratioed (S fuel) quarter_variances
    [PyNum (Fin 1); PyNum (Fin 1); PyNum (Fin 5); PyNum (Fin 5)]
    (Fin 0.005) (Fin 0.05) (Fin 0.8)
  = Some (Ok (Fin 148382)).
Proof.
  intros Hn Hqn Ht Hqt.
  unfold get_min_sample_sizes_ratioed. cbn [length Nat.ltb Nat.leb].
  assert (Hterms :
    broadcast fdiv
      (map (fun s => fmul s (Fin 1)) (np_array quarter_variances))
      (np_array [PyNum (Fin 1); PyNum (Fin 1); PyNum (Fin 5); PyNum (Fin 5)])
    = Ok (map Fin [0.25 * 1 / 1; 0.25 * 1 / 1; 0.25 * 1 / 5; 0.25 * 1 / 5])).
  { unfold broadcast.
    cbn [quarter_variances np_array map val length Nat.eqb combine fst snd].
    fin_eval. reflexivity. }
  unfold get_min_sample_sizes, init_state.
  unfold rhs_value_ratioed at 1.
  cbn [ra_s_squared ra_ratio ra_theta ra_significance_level ra_min_power
       getitem nth_error bind val].
  rewrite Hterms. cbn [bind]. rewrite Hn, np_sum_fsum, fsum_fin.
  unfold np_power2. rewrite !fmul_fin, fdiv_fin by lra.
  cbn [Rsum fold_right].
  rewrite (np_ceil_fin _ 148382) by lra.
  unfold nu_at. cbn [ra_s_squared].
  change (length quarter_variances) with 4%nat.
  rewrite quarter_variances_nu by lra. cbn [bind].
  unfold rhs_value_ratioed at 1.
  cbn [ra_s_squared ra_ratio ra_theta ra_significance_level ra_min_power
       getitem nth_error bind val].
  rewrite Hterms. cbn [bind]. rewrite Ht, np_sum_fsum, fsum_fin.
  unfold np_power2. rewrite !fmul_fin, fdiv_fin by lra.
  cbn [Rsum fold_right while_loop]. unfold while_step.
  cbn [n_min rhs_t_quantile].
  rewrite fle_fin_false by lra. reflexivity.
Qed.

(** The function reads its sequences through their values alone when no
    size is zero. *)
Lemma gws_same_values (s n n' : list pynum) :
  np_array n = np_array n' ->
  Forall (fun x => is_zero (val x) = false) n ->
  generalised_welch_satterthwaite s n = generalised_welch_satterthwaite s n'.
Proof.
  intros Hval Hnz. rewrite !gws_unfold. f_equal.
  generalize (Fin 0, Fin 0) as acc. revert n n' Hval Hnz.
  induction s as [| s_i s' IH]; intros n n' Hval Hnz acc; [reflexivity |].
  destruct n as [| n_i n], n' as [| n_i' n']; try discriminate;
    [reflexivity |].
  unfold np_array in Hval. simpl in Hval. injection Hval as Hv Hval.
  inversion Hnz as [| ? ? Hz Hnz']; subst.
  cbn [gws_zip]. unfold gws_raises, gws_num, gws_den. cbn [fst snd].
  rewrite <- Hv, Hz, !andb_false_r. now apply IH.
Qed.

(** get_min_detectable_effect(s_squared=[0.25]*4, n=[247303]*4,
    significance_level=0.05, min_power=0.8) is recorded as
    0.004999996643513604; the t quantiles at 0.95 and 0.2 differ by about
    2.486477 at these degrees of freedom. *)
Lemma effect_notebook_output {Q : Quantiles} (t1 t2 : R) :
  t_ppf (fsub (Fin 1) (Fin 0.05)) (Fin (4 * (247303 - 1))) = Fin t1 ->
  t_ppf (fsub (Fin 1) (Fin 0.8)) (Fin (4 * (247303 - 1))) = Fin t2 ->
  2.48647 < t1 - t2 < 2.48648 ->
  exists m,
    get_min_detectable_effect quarter_variances
      [PyNum (Fin 247303); PyNum (Fin 247303);
       PyNum (Fin 247303); PyNum (Fin 247303)]
      (Fin 0.05) (Fin 0.8) = Ok (Fin m) /\
    0.004999 < m < 0.005001.
Proof.
  intros Ht1 Ht2 Hd.
  unfold get_min_detectable_effect.
  rewrite (gws_same_values quarter_variances
             [PyNum (Fin 247303); PyNum (Fin 247303);
              PyNum (Fin 247303); PyNum (Fin 247303)]
             (np_repeat (Fin 247303) 4));
    [| reflexivity
     | repeat constructor; apply is_zero_fin_false; lra].
  rewrite quarter_variances_nu by lra. cbn [bind].
  rewrite Ht1, Ht2. unfold broadcast.
  cbn [quarter_variances np_array map val length Nat.eqb combine fst snd].
  fin_eval. cbn [bind].
  change [Fin (0.25 / 247303); Fin (0.25 / 247303);
          Fin (0.25 / 247303); Fin (0.25 / 247303)]
    with (map Fin [0.25 / 247303; 0.25 / 247303;
                   0.25 / 247303; 0.25 / 247303]).
  rewrite np_sum_fsum, fsum_fin. cbn [Rsum fold_right].
  unfold np_sqrt.
  set (x := 0.25 / 247303 + (0.25 / 247303 + (0.25 / 247303 +
                                               (0.25 / 247303 + 0)))).
  assert (Hx : x = 1 / 247303) by (unfold x; lra).
  destruct (Rle_dec 0 x) as [Hx0 | Hx0]; [| exfalso; lra].
  fin_eval. eexists. split; [reflexivity |].
  pose proof (sqrt_pos x) as Hroot0.
  pose proof (sqrt_sqrt x Hx0) as Hsq.
  set (root := sqrt x) in *.
  assert (Hlow : 0.0020108 < root) by nra.
  assert (Hhigh : root < 0.0020109) by nra.
  nra.
Qed.

(* ================================================================== *)
(** * Further properties of the equation *)
(* ================================================================== *)

Lemma gws_zip_short (s n : list pynum) (acc : float64 * float64) :
  (length n < length s)%nat ->
  gws_zip s n acc =
  Raise (if existsb gws_raises (combine s n)
         then ZeroDivisionError else IndexError).
Proof.
  revert n acc. induction s as [| s_i s' IH]; intros n acc Hlen;
    simpl in Hlen; [lia |].
  destruct n as [| n_i n']; [reflexivity |].
  cbn [gws_zip combine existsb].
  destruct (gws_raises (s_i, n_i)); [reflexivity |].
  apply IH. simpl in Hlen. lia.
Qed.

(** X1.  When there are fewer sizes than variances,
    [generalised_welch_satterthwaite] always raises: IndexError at the
    first variance without a size, unless an earlier group has already
    raised ZeroDivisionError. *)
Theorem gws_fewer_sizes_raises (s n : list pynum) :
  (length n < length s)%nat ->
  generalised_welch_satterthwaite s n =
  Raise (if existsb gws_raises (combine s n)
         then ZeroDivisionError else IndexError).
Proof.
  intros Hlen. rewrite gws_unfold, gws_zip_short by exact Hlen.
  reflexivity.
Qed.

Lemma gws_fewer_sizes_raises_witness :
  generalised_welch_satterthwaite
    [PyNum (Fin 0.25); PyNum (Fin 0.1)] [PyNum (Fin 100)]
  = Raise (if existsb gws_raises
                (combine [PyNum (Fin 0.25); PyNum (Fin 0.1)]
                         [PyNum (Fin 100)])
           then ZeroDivisionError else IndexError).
Proof.
  apply gws_fewer_sizes_raises. simpl. lia.
Defined.

Lemma gws_zip_firstn (s n : list pynum) (acc : float64 * float64) :
  gws_zip s (firstn (length s) n) acc = gws_zip s n acc.
Proof.
  revert n acc. induction s as [| s_i s' IH]; intros n acc; [reflexivity |].
  destruct n as [| n_i n']; [reflexivity |].
  cbn [length firstn gws_zip].
  destruct (gws_raises (s_i, n_i)); [reflexivity | apply IH].
Qed.

(** X2.  Only the first len(s_squared) sizes are read: sizes beyond the
    number of variances are ignored. *)
Theorem gws_ignores_surplus_sizes (s n : list pynum) :
  generalised_welch_satterthwaite s n
  = generalised_welch_satterthwaite s (firstn (length s) n).
Proof. now rewrite !gws_unfold, gws_zip_firstn. Qed.

Lemma existsb_gws_raises (l : list (pynum * pynum)) :
  existsb gws_raises l = true <-> Exists python_zero_size l.
Proof.
  rewrite existsb_exists, Exists_exists.
  split; intros [p [Hin Hp]]; exists p; split; auto.
  - unfold gws_raises in Hp. unfold python_zero_size.
    apply andb_prop in Hp as [Hk Hz].
    apply negb_true_iff, orb_false_elim in Hk as [H1 H2].
    repeat split; auto.
    destruct (val (snd p)) as [r | | |]; try discriminate.
    simpl in Hz. destruct (Req_dec_T r 0); [now subst | discriminate].
  - destruct Hp as (H1 & H2 & H3). unfold gws_raises.
    rewrite H1, H2, H3. simpl.
    destruct (Req_dec_T 0 0); [reflexivity | contradiction].
Qed.

(** X3.  With as many sizes as variances the only exception is
    ZeroDivisionError, and it is raised exactly when some group has a
    variance and a size that are both plain Python numbers, the size being
    zero; a zero size in a numpy array never raises. *)
Theorem gws_raises_only_zero_division (s n : list pynum) :
  length s = length n ->
  (forall e, generalised_welch_satterthwaite s n = Raise e ->
             e = ZeroDivisionError) /\
  (generalised_welch_satterthwaite s n = Raise ZeroDivisionError
   <-> Exists python_zero_size (combine s n)).
Proof.
  intros Hlen. rewrite gws_unfold, gws_zip_sums by exact Hlen.
  rewrite <- existsb_gws_raises.
  destruct (existsb gws_raises (combine s n)); cbn [bind]; split.
  - intros e H. now injection H as <-.
  - split; auto.
  - discriminate.
  - split; discriminate.
Qed.

Lemma gws_raises_only_zero_division_witness :
  (forall e, generalised_welch_satterthwaite
               [PyNum (Fin 0.25)] [PyNum (Fin 0)] = Raise e ->
             e = ZeroDivisionError) /\
  (generalised_welch_satterthwaite [PyNum (Fin 0.25)] [PyNum (Fin 0)]
   = Raise ZeroDivisionError
   <-> Exists python_zero_size
         (combine [PyNum (Fin 0.25)] [PyNum (Fin 0)])).
Proof.
  apply gws_raises_only_zero_division. reflexivity.
Defined.

Lemma np_array_constant (l : list pynum) (a : R) :
  Forall (fun x => val x = Fin a) l ->
  np_array l = map Fin (repeat a (length l)).
Proof.
  unfold np_array. induction 1 as [| x l Hx _ IH]; simpl; [reflexivity |].
  now rewrite Hx, IH.
Qed.

Lemma Rsum_constant (f : R * R -> R) (a b : R) (k : nat) :
  Rsum (map f (combine (repeat a k) (repeat b k))) = INR k * f (a, b).
Proof.
  induction k as [| k IH]; [simpl; lra |].
  cbn [repeat combine map Rsum fold_right]. fold (Rsum (map f (combine (repeat a k) (repeat b k)))).
  rewrite IH, S_INR. ring.
Qed.



(** ** Bounds on the degrees of freedom *)

Lemma Forall_combine_snd (P : R -> Prop) (sv nv : list R) :
  Forall P nv -> Forall (fun p => P (snd p)) (combine sv nv).
Proof.
  intros H. revert sv. induction H as [| b nv Hb _ IH]; intros [| a sv];
    simpl; constructor; auto.
Qed.

Lemma Forall_combine_fst (P : R -> Prop) (sv nv : list R) :
  Forall P sv -> Forall (fun p => P (fst p)) (combine sv nv).
Proof.
  intros H. revert nv. induction H as [| a sv Ha _ IH]; intros [| b nv];
    simpl; constructor; auto.
Qed.

Lemma Rsum_combine_snd (f : R -> R) (sv nv : list R) :
  length sv = length nv ->
  Rsum (map (fun p => f (snd p)) (combine sv nv)) = Rsum (map f nv).
Proof.
  revert nv. induction sv as [| a sv IH]; intros [| b nv] Hlen;
    simpl in *; try discriminate; [reflexivity |].
  f_equal. apply IH. lia.
Qed.

Lemma Rle_of_squares (x y : R) : 0 <= y -> x * x <= y * y -> x <= y.
Proof. intros Hy Hsq. destruct (Rle_lt_dec x y); [assumption | nra]. Qed.

(** Cauchy-Schwarz with the weights n_g - 1. *)
Lemma welch_cauchy_schwarz (ps : list (R * R)) :
  Forall (fun p => 1 < snd p) ps ->
  0 <= Rsum (map (fun p => psi p ^ 2 / (snd p - 1)) ps) /\
  0 <= Rsum (map (fun p => snd p - 1) ps) /\
  Rsum (map psi ps) * Rsum (map psi ps)
  <= Rsum (map (fun p => snd p - 1) ps)
     * Rsum (map (fun p => psi p ^ 2 / (snd p - 1)) ps).
Proof.
  induction 1 as [| p ps Hp _ (HD & HW & IH)];
    cbn [map Rsum fold_right]; [lra |].
  fold (Rsum (map psi ps)) (Rsum (map (fun p => snd p - 1) ps))
       (Rsum (map (fun p => psi p ^ 2 / (snd p - 1)) ps)).
  set (x := psi p) in *.
  set (w := snd p - 1) in *.
  set (N := Rsum (map psi ps)) in *.
  set (W := Rsum (map (fun p => snd p - 1) ps)) in *.
  set (D := Rsum (map (fun p => psi p ^ 2 / (snd p - 1)) ps)) in *.
  assert (Hw : 0 < w) by (unfold w; lra).
  assert (Hq : 0 <= x ^ 2 / w).
  { apply Rmult_le_pos; [apply pow2_ge_0 |].
    apply Rlt_le, Rinv_0_lt_compat; lra. }
  assert (Hqw : x ^ 2 / w * w = x * x) by (field; lra).
  set (q := x ^ 2 / w) in *.
  split; [lra |]. split; [lra |].
  assert (Hcross : 2 * x * N <= w * D + W * q).
  { apply Rle_of_squares; [nra |].
    assert (H4 : 4 * (x * x) * (N * N) <= 4 * (x * x) * (W * D)) by nra.
    replace (4 * (x * x) * (W * D)) with (4 * (w * D) * (W * q)) in H4
      by (rewrite <- Hqw; ring).
    pose proof (Rle_0_sqr (w * D - W * q)) as Hsq. unfold Rsqr in Hsq.
    nra. }
  nra.
Qed.

Lemma welch_lower_bound (ps : list (R * R)) (m : R) :
  Forall (fun p => 0 <= fst p) ps ->
  Forall (fun p => 1 < snd p) ps ->
  Forall (fun p => m <= snd p - 1) ps ->
  0 <= Rsum (map psi ps) /\
  m * Rsum (map (fun p => psi p ^ 2 / (snd p - 1)) ps)
  <= Rsum (map psi ps) * Rsum (map psi ps).
Proof.
  intros Hs Hn Hm.
  assert (H : 0 <= Rsum (map psi ps) /\
              Rsum (map (fun p => psi p * psi p) ps)
              <= Rsum (map psi ps) * Rsum (map psi ps) /\
              m * Rsum (map (fun p => psi p ^ 2 / (snd p - 1)) ps)
              <= Rsum (map (fun p => psi p * psi p) ps)).
  { induction ps as [| p ps IH]; cbn [map Rsum fold_right]; [lra |].
    fold (Rsum (map psi ps)) (Rsum (map (fun p => psi p * psi p) ps))
         (Rsum (map (fun p => psi p ^ 2 / (snd p - 1)) ps)).
    inversion Hs as [| ? ? Hs1 Hs2]; inversion Hn as [| ? ? Hn1 Hn2];
      inversion Hm as [| ? ? Hm1 Hm2]; subst.
    destruct (IH Hs2 Hn2 Hm2) as (HN & HQ & HD).
    assert (Hx : 0 <= psi p).
    { unfold psi. apply Rmult_le_pos; [assumption |].
      apply Rlt_le, Rinv_0_lt_compat. lra. }
    set (x := psi p) in *.
    set (w := snd p - 1) in *.
    set (N := Rsum (map psi ps)) in *.
    set (Q := Rsum (map (fun p => psi p * psi p) ps)) in *.
    set (D := Rsum (map (fun p => psi p ^ 2 / (snd p - 1)) ps)) in *.
    assert (Hw : 0 < w) by (unfold w; lra).
    assert (Hq : 0 <= x ^ 2 / w).
    { apply Rmult_le_pos; [apply pow2_ge_0 |].
      apply Rlt_le, Rinv_0_lt_compat; lra. }
    assert (Hqw : x ^ 2 / w * w = x * x) by (field; lra).
    set (q := x ^ 2 / w) in *.
    assert (Hmq : m * q <= x * x) by nra.
    split; [lra |]. split; nra. }
  destruct H as (H1 & H2 & H3). split; lra.
Qed.



(** ** Rescaling the variances *)

Lemma fmul_pos_fadd (c : R) (x y : float64) :
  0 < c ->
  fmul (Fin c) (fadd x y) = fadd (fmul (Fin c) x) (fmul (Fin c) y).
Proof.
  intros Hc. destruct x, y; unfold fmul, fadd, inf_signed;
    decide_reals; try reflexivity; try (exfalso; lra).
  apply Fin_eq. ring.
Qed.

Lemma fsum_scale (c : R) (l : list float64) :
  0 < c -> fsum (map (fmul (Fin c)) l) = fmul (Fin c) (fsum l).
Proof.
  intros Hc. induction l as [| x l IH]; simpl.
  - rewrite fmul_fin. apply Fin_eq. ring.
  - now rewrite IH, fmul_pos_fadd.
Qed.

Lemma fdiv_scale_fin (c a : R) (v : float64) :
  0 < c -> fdiv (Fin (c * a)) v = fmul (Fin c) (fdiv (Fin a) v).
Proof.
  intros Hc. destruct v; unfold fdiv, fmul, inf_signed;
    decide_reals; try reflexivity; try (exfalso; nra);
    try (apply Fin_eq; field; lra).
Qed.

Lemma quotient_rescale (c : R) (N D : float64) :
  0 < c ->
  fdiv (np_power2 (fmul (Fin c) N)) (fmul (Fin (c * c)) D)
  = fdiv (np_power2 N) D.
Proof.
  intros Hc. assert (Hcc : 0 < c * c) by nra.
  destruct N as [a | | |], D as [d | | |];
    unfold np_power2, fdiv, fmul, inf_signed;
    decide_reals; try reflexivity; try (exfalso; nra);
    try (apply Fin_eq; field; lra).
Qed.

Lemma val_py_scale (c : R) (x : pynum) :
  val (py_scale c x) = fmul (Fin c) (val x).
Proof. now destruct x. Qed.

Lemma is_np_py_scale (c : R) (x : pynum) : is_np (py_scale c x) = is_np x.
Proof. now destruct x. Qed.

Lemma gws_zip_scale (c : R) (s n : list pynum) (A B : float64) :
  0 < c ->
  Forall (fun x => exists a, val x = Fin a) s ->
  gws_zip (map (py_scale c) s) n (fmul (Fin c) A, fmul (Fin (c * c)) B)
  = match gws_zip s n (A, B) with
    | Ok r => Ok (fmul (Fin c) (fst r), fmul (Fin (c * c)) (snd r))
    | Raise e => Raise e
    end.
Proof.
  intros Hc Hfin. assert (Hcc : 0 < c * c) by nra.
  revert n A B. induction Hfin as [| s_i s' [a Ha] _ IH]; intros n A B;
    [reflexivity |].
  destruct n as [| n_i n']; [reflexivity |].
  cbn [map gws_zip fst snd].
  assert (Hr : gws_raises (py_scale c s_i, n_i) = gws_raises (s_i, n_i)).
  { unfold gws_raises. cbn [fst snd]. now rewrite is_np_py_scale. }
  rewrite Hr. destruct (gws_raises (s_i, n_i)); [reflexivity |].
  assert (Hnum : gws_num (py_scale c s_i, n_i)
                 = fmul (Fin c) (gws_num (s_i, n_i))).
  { unfold gws_num. cbn [fst snd].
    rewrite val_py_scale, Ha, fmul_fin. now apply fdiv_scale_fin. }
  assert (Hden : gws_den (py_scale c s_i, n_i)
                 = fmul (Fin (c * c)) (gws_den (s_i, n_i))).
  { unfold gws_den, np_power2. cbn [fst snd].
    rewrite val_py_scale, Ha, !fmul_fin.
    replace (c * a * (c * a)) with (c * c * (a * a)) by ring.
    now apply fdiv_scale_fin. }
  rewrite Hnum, Hden, <- !fmul_pos_fadd by assumption.
  apply IH.
Qed.

Lemma gws_scale (c : R) (s n : list pynum) :
  0 < c ->
  Forall (fun x => exists a, val x = Fin a) s ->
  generalised_welch_satterthwaite (map (py_scale c) s) n
  = generalised_welch_satterthwaite s n.
Proof.
  intros Hc Hfin. rewrite !gws_unfold.
  replace (Fin 0, Fin 0)
    with (fmul (Fin c) (Fin 0), fmul (Fin (c * c)) (Fin 0)) at 1
    by (rewrite !fmul_fin; f_equal; apply Fin_eq; ring).
  rewrite gws_zip_scale by assumption.
  destruct (gws_zip s n (Fin 0, Fin 0)) as [[N D] |]; [| reflexivity].
  cbn [bind fst snd]. now rewrite quotient_rescale.
Qed.



(* ================================================================== *)
(** * Further properties of the iterative procedure *)
(* ================================================================== *)

Lemma Zceil_IZR (z : Z) : Zceil (IZR z) = z.
Proof. apply Zceil_eq. lra. Qed.

Section SolverExtras.
Context {K : Type}.
Variable lookup_s : K -> list pynum.
Variable rhs_func : K -> option float64 -> result float64.
Variable kwargs : K.

Lemma while_loop_raises (fuel : nat) (st : loop_state) (e : pyerr) :
  while_loop lookup_s rhs_func kwargs fuel st = Some (Raise e) ->
  exists v, rhs_func kwargs (Some v) = Raise e.
Proof.
  revert st. induction fuel as [| fuel IH]; intros st; simpl;
    [discriminate |].
  destruct (while_step lookup_s rhs_func kwargs st) as [st' | n | e']
    eqn:Hs; [apply IH | discriminate |].
  intros H. injection H as ->. eapply while_step_fail; eauto.
Qed.

Lemma get_min_sample_sizes_raises (fuel : nat) (e : pyerr) :
  get_min_sample_sizes lookup_s rhs_func kwargs fuel = Some (Raise e) ->
  exists nu, rhs_func kwargs nu = Raise e.
Proof.
  unfold get_min_sample_sizes, init_state.
  destruct (rhs_func kwargs None) as [r0 | e0] eqn:H0; cbn [bind].
  - destruct (nu_at_ok lookup_s kwargs (np_ceil r0)) as [v ->]. cbn [bind].
    destruct (rhs_func kwargs (Some v)) as [r | e1] eqn:H1; cbn [bind].
    + intros H. apply while_loop_raises in H as [v' Hv']. eauto.
    + intros H. injection H as <-. eauto.
  - intros H. injection H as <-. eauto.
Qed.

Lemma state_after_prefix (j k : nat) (st st' : loop_state) :
  state_after lookup_s rhs_func kwargs k st = Some st' -> (j <= k)%nat ->
  exists stj, state_after lookup_s rhs_func kwargs j st = Some stj.
Proof.
  revert k st. induction j as [| j IH]; intros k st Hk Hle; [simpl; eauto |].
  destruct k as [| k]; [lia |].
  simpl in *.
  destruct (while_step lookup_s rhs_func kwargs st) as [st1 | |];
    try discriminate.
  eapply IH; eauto. lia.
Qed.

Lemma earlier_candidates_pass (j k : nat) (st st' stj : loop_state) :
  state_after lookup_s rhs_func kwargs k st = Some st' -> (j < k)%nat ->
  state_after lookup_s rhs_func kwargs j st = Some stj ->
  fle (n_min stj) (rhs_t_quantile stj) = true.
Proof.
  intros Hk Hlt Hj.
  destruct (state_after_prefix (S j) k st st' Hk Hlt) as [st2 H2].
  eapply state_after_test; eauto. congruence.
Qed.

Lemma while_loop_after (k f : nat) (st st' : loop_state) :
  state_after lookup_s rhs_func kwargs k st = Some st' ->
  while_loop lookup_s rhs_func kwargs (k + f) st
  = while_loop lookup_s rhs_func kwargs f st'.
Proof.
  revert st. induction k as [| k IH]; intros st Hk; simpl in *.
  - now injection Hk as <-.
  - destruct (while_step lookup_s rhs_func kwargs st) as [st1 | |];
      try discriminate.
    now apply IH.
Qed.

(** A state that reproduces itself is never left. *)
Lemma stall_never_returns (k : nat) (st st' : loop_state) :
  state_after lookup_s rhs_func kwargs k st = Some st' ->
  while_step lookup_s rhs_func kwargs st' = Continue st' ->
  forall fuel, while_loop lookup_s rhs_func kwargs fuel st = None.
Proof.
  intros Hk Hstall fuel.
  destruct (Nat.le_gt_cases fuel k) as [Hle | Hgt].
  - apply while_loop_running.
    eapply state_after_prefix; eauto.
  - replace fuel with (k + (fuel - k))%nat by lia.
    rewrite (while_loop_after k (fuel - k) st st' Hk).
    now apply stalled_loop.
Qed.

(** With right-hand sides that are real numbers at most [B], a state whose
    candidate is the integer [z] returns within [m + 1] loop tests, [m]
    bounding the distance from [z] to the ceiling of [B], or stalls. *)
Lemma bounded_rhs_loop (B : R) :
  (forall nu, exists r, rhs_func kwargs (Some nu) = Ok (Fin r) /\ r <= B) ->
  forall (m : nat) (st : loop_state) (z : Z) (r : R),
    consistent lookup_s rhs_func kwargs st ->
    n_min st = Fin (IZR z) -> rhs_t_quantile st = Fin r -> r <= B ->
    (Zceil B - z <= Z.of_nat m)%Z ->
    (exists n, while_loop lookup_s rhs_func kwargs (S m) st = Some (Ok n)) \/
    (forall fuel, while_loop lookup_s rhs_func kwargs fuel st = None).
Proof.
  intros HB. induction m as [| m IH]; intros st z r Hok Hn Hr HrB Hm.
  - (* the candidate is at least the ceiling of B *)
    destruct (fle (n_min st) (rhs_t_quantile st)) eqn:Htest.
    + right. rewrite Hn, Hr in Htest. apply fle_fin in Htest.
      assert (Hz : (z <= Zceil r)%Z).
      { rewrite <- (Zceil_IZR z) at 1. now apply Zceil_le. }
      assert (Hz' : (Zceil r <= Zceil B)%Z) by now apply Zceil_le.
      assert (Heq : Zceil r = z) by lia.
      apply (stall_never_returns 0 st st eq_refl).
      apply stalled_step; auto.
      * rewrite Hn, Hr. now apply fle_fin.
      * rewrite Hr, Hn. simpl. now rewrite Heq.
    + left. exists (n_min st). simpl. unfold while_step. now rewrite Htest.
  - destruct (fle (n_min st) (rhs_t_quantile st)) eqn:Htest.
    + pose proof Htest as Hle. rewrite Hn, Hr in Hle. apply fle_fin in Hle.
      assert (Hz : (z <= Zceil r)%Z).
      { rewrite <- (Zceil_IZR z) at 1. now apply Zceil_le. }
      destruct (Z.eq_dec (Zceil r) z) as [Heq | Hneq].
      * right. apply (stall_never_returns 0 st st eq_refl).
        apply stalled_step; auto.
        rewrite Hr, Hn. simpl. now rewrite Heq.
      * destruct (while_step lookup_s rhs_func kwargs st) as [st1 | n | e]
          eqn:Hs.
        -- pose proof (while_step_consistent _ _ _ _ _ Hs) as Hok1.
           apply while_step_continue in Hs as Hc.
           destruct Hc as (_ & Hn1 & Hv1 & Hr1).
           destruct (HB (nu st1)) as (r1 & Hr1' & Hr1B).
           rewrite Hr1 in Hr1'. injection Hr1' as Hr1'.
           rewrite Hr in Hn1. simpl in Hn1.
           destruct (IH st1 (Zceil r) r1 Hok1 Hn1 Hr1' Hr1B ltac:(lia))
             as [[n Hret] | Hloop].
           ++ left. exists n.
              change (while_loop lookup_s rhs_func kwargs (S (S m)) st)
                with (match while_step lookup_s rhs_func kwargs st with
                      | Continue st' =>
                          while_loop lookup_s rhs_func kwargs (S m) st'
                      | Return n => Some (Ok n)
                      | Fail e => Some (Raise e)
                      end).
              now rewrite Hs.
           ++ right. intros [| fuel]; [reflexivity |].
              simpl. rewrite Hs. apply Hloop.
        -- apply while_step_return in Hs as [_ Hf]. congruence.
        -- apply while_step_fail in Hs as [v Hv].
           destruct (HB v) as (r' & Hr' & _). congruence.
    + left. exists (n_min st). simpl. unfold while_step. now rewrite Htest.
Qed.
End SolverExtras.







(* ================================================================== *)
(** * Further properties of the scenario formulas *)
(* ================================================================== *)

Lemma rhs_value_equal_total {Q : Quantiles} (kw : kwargs_equal)
    (nu : option float64) :
  exists r, rhs_value_equal kw nu = Ok r.
Proof. unfold rhs_value_equal. eauto. Qed.

(** X10.  [get_min_sample_sizes_equal] never raises, whatever its
    arguments (an empty sequence of variances, an effect of zero and levels
    outside (0, 1) included): it returns a value or keeps iterating. *)
Theorem get_min_sample_sizes_equal_never_raises {Q : Quantiles}
    (fuel : nat) (s : list pynum) (theta alpha power : float64) (e : pyerr) :
  get_min_sample_sizes_equal fuel s theta alpha power <> Some (Raise e).
Proof.
  unfold get_min_sample_sizes_equal.
  apply get_min_sample_sizes_no_error.
  intros nu. apply rhs_value_equal_total.
Qed.

Lemma rhs_ratioed_ignores_sign {Q : Quantiles} (s ratio : list pynum)
    (theta : R) (alpha power : float64) (nu : option float64) :
  rhs_value_ratioed
    {| ra_s_squared := s; ra_ratio := ratio; ra_theta := Fin (- theta);
       ra_significance_level := alpha; ra_min_power := power |} nu
  = rhs_value_ratioed
    {| ra_s_squared := s; ra_ratio := ratio; ra_theta := Fin theta;
       ra_significance_level := alpha; ra_min_power := power |} nu.
Proof.
  unfold rhs_value_ratioed.
  cbn [ra_s_squared ra_ratio ra_theta ra_significance_level ra_min_power].
  unfold np_power2. rewrite !fmul_fin.
  replace (- theta * - theta) with (theta * theta) by ring. reflexivity.
Qed.

(** X11.  The effect enters both procedures through its square only:
    [get_min_sample_sizes_equal] and [get_min_sample_sizes_ratioed] return
    for -theta what they return for theta. *)
Theorem sample_sizes_ignore_sign_of_theta {Q : Quantiles} (fuel : nat)
    (s ratio : list pynum) (theta : R) (alpha power : float64) :
  get_min_sample_sizes_equal fuel s (Fin (- theta)) alpha power
  = get_min_sample_sizes_equal fuel s (Fin theta) alpha power /\
  get_min_sample_sizes_ratioed fuel s ratio (Fin (- theta)) alpha power
  = get_min_sample_sizes_ratioed fuel s ratio (Fin theta) alpha power.
Proof.
  split; [apply equal_ignores_sign |].
  unfold get_min_sample_sizes_ratioed.
  destruct (0 <? length ratio)%nat; [| reflexivity].
  apply get_min_sample_sizes_ext; [reflexivity |].
  intros nu. apply rhs_ratioed_ignores_sign.
Qed.

(** ** Exchanging the significance level and the power *)

Lemma fsub_swap (x y : float64) : fsub y x = fneg (fsub x y).
Proof.
  destruct x, y; unfold fsub, fadd, fneg; try reflexivity.
  apply Fin_eq. ring.
Qed.

Lemma np_power2_fneg (x : float64) : np_power2 (fneg x) = np_power2 x.
Proof.
  destruct x; unfold np_power2, fmul, fneg; try reflexivity.
  apply Fin_eq. ring.
Qed.

Lemma fmul_fneg_l (d r : float64) : fmul (fneg d) r = fneg (fmul d r).
Proof.
  destruct d, r; unfold fmul, fneg, inf_signed;
    decide_reals; try reflexivity; try (exfalso; lra).
  apply Fin_eq. ring.
Qed.

Lemma norm_quantile_diff_swap {Q : Quantiles} (alpha power : float64) :
  norm_quantile_diff power alpha = norm_quantile_diff alpha power.
Proof.
  unfold norm_quantile_diff.
  now rewrite (fsub_swap (norm_ppf (fsub (Fin 1) alpha))), np_power2_fneg.
Qed.

Lemma t_quantile_diff_swap {Q : Quantiles} (alpha power nu : float64) :
  t_quantile_diff power alpha nu = t_quantile_diff alpha power nu.
Proof.
  unfold t_quantile_diff.
  now rewrite (fsub_swap (t_ppf (fsub (Fin 1) alpha) nu)), np_power2_fneg.
Qed.

(** X12.  The quantile differences are squared, so the two procedures
    return the same sample size when the significance level and the
    minimum power are exchanged, while [get_min_detectable_effect] returns
    the opposite effect. *)
Theorem exchanging_level_and_power {Q : Quantiles} (fuel : nat)
    (s ratio n : list pynum) (theta alpha power : float64) :
  get_min_sample_sizes_equal fuel s theta power alpha
  = get_min_sample_sizes_equal fuel s theta alpha power /\
  get_min_sample_sizes_ratioed fuel s ratio theta power alpha
  = get_min_sample_sizes_ratioed fuel s ratio theta alpha power /\
  get_min_detectable_effect s n power alpha
  = (m <- get_min_detectable_effect s n alpha power ;; Ok (fneg m)).
Proof.
  split; [| split].
  - unfold get_min_sample_sizes_equal.
    apply get_min_sample_sizes_ext; [reflexivity |].
    intros [nu |]; unfold rhs_value_equal;
      cbn [eq_s_squared eq_theta eq_significance_level eq_min_power].
    + now rewrite t_quantile_diff_swap.
    + now rewrite norm_quantile_diff_swap.
  - unfold get_min_sample_sizes_ratioed.
    destruct (0 <? length ratio)%nat; [| reflexivity].
    apply get_min_sample_sizes_ext; [reflexivity |].
    intros [nu |]; unfold rhs_value_ratioed;
      cbn [ra_s_squared ra_ratio ra_theta ra_significance_level
           ra_min_power].
    + now rewrite t_quantile_diff_swap.
    + now rewrite norm_quantile_diff_swap.
  - unfold get_min_detectable_effect.
    destruct (generalised_welch_satterthwaite s n) as [v |]; [| reflexivity].
    cbn [bind].
    destruct (broadcast fdiv (np_array s) (np_array n)) as [l |];
      [| reflexivity].
    cbn [bind].
    now rewrite (fsub_swap (t_ppf (fsub (Fin 1) alpha) v)), fmul_fneg_l.
Qed.

(** ** A single ratio *)

Lemma single_ratio_terms (xs : list float64) (c : R) :
  c <> 0 ->
  broadcast fdiv (map (fun s => fmul s (Fin c)) xs) [Fin c] = Ok xs.
Proof.
  intros Hc. unfold broadcast. rewrite length_map. cbn [length hd].
  destruct (length xs =? 1)%nat eqn:Hlen.
  - destruct xs as [| x [| ? ?]]; try discriminate.
    cbn [map combine fst snd]. now rewrite fdiv_fmul_cancel.
  - cbn [Nat.eqb]. rewrite map_map. f_equal.
    rewrite <- (map_id xs) at 2. apply map_ext.
    intros x. now apply fdiv_fmul_cancel.
Qed.



(** ** Changing the unit of measurement *)

Section ExtensionalityNu.
Context {K1 K2 : Type}.
Variable lookup1 : K1 -> list pynum.
Variable rhs1 : K1 -> option float64 -> result float64.
Variable kw1 : K1.
Variable lookup2 : K2 -> list pynum.
Variable rhs2 : K2 -> option float64 -> result float64.
Variable kw2 : K2.
Hypothesis same_nu : forall x, nu_at lookup1 kw1 x = nu_at lookup2 kw2 x.
Hypothesis same_rhs : forall nu, rhs1 kw1 nu = rhs2 kw2 nu.

Lemma while_step_ext_nu (st : loop_state) :
  while_step lookup1 rhs1 kw1 st = while_step lookup2 rhs2 kw2 st.
Proof.
  unfold while_step. rewrite same_nu.
  destruct (fle (n_min st) (rhs_t_quantile st)); [| reflexivity].
  destruct (nu_at lookup2 kw2 (np_ceil (rhs_t_quantile st))); [| reflexivity].
  now rewrite same_rhs.
Qed.

Lemma while_loop_ext_nu (fuel : nat) (st : loop_state) :
  while_loop lookup1 rhs1 kw1 fuel st = while_loop lookup2 rhs2 kw2 fuel st.
Proof.
  revert st. induction fuel as [| fuel IH]; intros st; simpl;
    [reflexivity |].
  rewrite while_step_ext_nu.
  destruct (while_step lookup2 rhs2 kw2 st); auto.
Qed.

Lemma get_min_sample_sizes_ext_nu (fuel : nat) :
  get_min_sample_sizes lookup1 rhs1 kw1 fuel
  = get_min_sample_sizes lookup2 rhs2 kw2 fuel.
Proof.
  unfold get_min_sample_sizes, init_state.
  rewrite same_rhs.
  destruct (rhs2 kw2 None) as [r0 |]; [| reflexivity]. cbn [bind].
  rewrite same_nu.
  destruct (nu_at lookup2 kw2 (np_ceil r0)) as [v |]; [| reflexivity].
  cbn [bind]. rewrite same_rhs.
  destruct (rhs2 kw2 (Some v)); [| reflexivity].
  cbn [bind]. apply while_loop_ext_nu.
Qed.
End ExtensionalityNu.

Lemma np_array_py_scale (c : R) (s : list pynum) :
  np_array (map (py_scale c) s) = map (fmul (Fin c)) (np_array s).
Proof.
  unfold np_array. rewrite !map_map. apply map_ext. apply val_py_scale.
Qed.

Lemma finite_values (s : list pynum) :
  Forall (fun x => exists a, val x = Fin a) s ->
  exists sv, np_array s = map Fin sv.
Proof.
  unfold np_array. induction 1 as [| x l [a Ha] _ [sv IH]].
  - exists []. reflexivity.
  - exists (a :: sv). simpl. now rewrite Ha, IH.
Qed.

Lemma rhs_rescale (k S T : R) (q : float64) :
  0 < k ->
  fdiv (fmul q (Fin (k * S))) (Fin (k * T)) = fdiv (fmul q (Fin S)) (Fin T).
Proof.
  intros Hk. destruct q as [a | | |]; unfold fdiv, fmul, inf_signed;
    decide_reals; try reflexivity; try (exfalso; nra);
    try (apply Fin_eq; field; lra).
Qed.



(* ================================================================== *)
(** * Further properties of the minimum detectable effect *)
(* ================================================================== *)

Lemma broadcast_fdiv_scale (c : R) (sv : list R) (ns : list float64) :
  0 < c ->
  broadcast fdiv (map (fmul (Fin c)) (map Fin sv)) ns
  = (l <- broadcast fdiv (map Fin sv) ns ;; Ok (map (fmul (Fin c)) l)).
Proof.
  intros Hc. unfold broadcast. rewrite !length_map.
  destruct (length sv =? length ns)%nat.
  - cbn [bind]. f_equal. revert ns.
    induction sv as [| a sv IH]; intros [| y ns]; try reflexivity.
    cbn [map combine fst snd]. rewrite fmul_fin, fdiv_scale_fin by exact Hc.
    f_equal. apply IH.
  - destruct (length ns =? 1)%nat.
    + cbn [bind]. f_equal. rewrite !map_map. apply map_ext.
      intros a. rewrite fmul_fin. now apply fdiv_scale_fin.
    + destruct (length sv =? 1)%nat eqn:Hone; [| reflexivity].
      destruct sv as [| a [| ? ?]]; try discriminate.
      cbn [bind map hd]. f_equal. rewrite map_map. apply map_ext.
      intros y. rewrite fmul_fin. now apply fdiv_scale_fin.
Qed.

Lemma np_sqrt_scale (c : R) (x : float64) :
  0 < c -> np_sqrt (fmul (Fin c) x) = fmul (Fin (sqrt c)) (np_sqrt x).
Proof.
  intros Hc. pose proof (sqrt_lt_R0 c Hc) as Hroot.
  destruct x as [a | | |]; unfold np_sqrt, fmul, inf_signed;
    decide_reals; try reflexivity; try (exfalso; nra).
  apply Fin_eq. apply sqrt_mult; lra.
Qed.

Lemma fmul_pos_swap (r : R) (d y : float64) :
  0 < r -> fmul d (fmul (Fin r) y) = fmul (Fin r) (fmul d y).
Proof.
  intros Hr. destruct d as [a | | |], y as [b | | |];
    unfold fmul, inf_signed;
    decide_reals; try reflexivity; try (exfalso; nra).
  apply Fin_eq. ring.
Qed.



(** X15.  [get_min_detectable_effect] checks no lengths itself.  With
    fewer sizes than variances it raises what
    [generalised_welch_satterthwaite] raises (IndexError, or an earlier
    ZeroDivisionError).  With more sizes than variances the degrees of
    freedom are computed from the first sizes, and then numpy's ValueError
    for arrays of different shapes is raised, unless one of the two
    lengths is one. *)
Theorem get_min_detectable_effect_length_errors {Q : Quantiles}
    (s n : list pynum) (alpha power : float64) :
  ((length n < length s)%nat ->
   get_min_detectable_effect s n alpha power
   = Raise (if existsb gws_raises (combine s n)
            then ZeroDivisionError else IndexError)) /\
  ((length s < length n)%nat ->
   length s <> 1%nat -> length n <> 1%nat ->
   existsb gws_raises (combine s n) = false ->
   get_min_detectable_effect s n alpha power = Raise ValueError).
Proof.
  unfold get_min_detectable_effect. split.
  - intros Hlen. rewrite gws_unfold, gws_zip_short by exact Hlen.
    reflexivity.
  - intros Hlen Hs Hn Hnz.
    rewrite gws_unfold, <- gws_zip_firstn.
    rewrite gws_zip_sums
      by (rewrite length_firstn; lia).
    assert (Hcomb : combine s (firstn (length s) n) = combine s n).
    { clear. revert n. induction s as [| x s IH]; intros [| y n];
        simpl; try reflexivity. now rewrite IH. }
    rewrite Hcomb, Hnz. cbn [bind].
    rewrite broadcast_error; [reflexivity | | |];
      unfold np_array; rewrite ?length_map; lia.
Qed.

Lemma get_min_detectable_effect_length_errors_witness :
  @get_min_detectable_effect uniform_quantiles
    [PyNum (Fin 0.25); PyNum (Fin 0.25)] [PyNum (Fin 100)]
    (Fin 0.05) (Fin 0.8)
  = Raise (if existsb gws_raises
                (combine [PyNum (Fin 0.25); PyNum (Fin 0.25)]
                         [PyNum (Fin 100)])
           then ZeroDivisionError else IndexError).
Proof.
  apply (proj1 (@get_min_detectable_effect_length_errors uniform_quantiles
                  [PyNum (Fin 0.25); PyNum (Fin 0.25)] [PyNum (Fin 100)]
                  (Fin 0.05) (Fin 0.8))).
  simpl. lia.
Defined.

(* ================================================================== *)
(** * Degenerate arguments of the equal-size procedure *)
(* ================================================================== *)

(** X17.  With no group at all, a real effect other than zero and a real
    quantile difference under the normal approximation,
    [get_min_sample_sizes_equal] returns 0 without entering the loop body:
    the degrees of freedom of no groups are NaN, and so are the t
    quantiles there (as scipy's are). *)
Theorem get_min_sample_sizes_equal_no_groups {Q : Quantiles}
    (fuel : nat) (theta q : R) (alpha power : float64) :
  norm_quantile_diff alpha power = Fin q ->
  theta <> 0 ->
  (forall p, t_ppf p NaN = NaN) ->
  get_min_sample_sizes_equal (S fuel) [] (Fin theta) alpha power
  = Some (Ok (Fin 0)).
Proof.
  intros Hq Hth Ht.
  assert (Hsq : theta * theta <> 0) by nra.
  unfold get_min_sample_sizes_equal, get_min_sample_sizes, init_state.
  unfold rhs_value_equal at 1.
  cbn [eq_s_squared eq_theta eq_significance_level eq_min_power].
  rewrite Hq. unfold np_power2, np_sum. cbn [np_array map fold_left].
  rewrite !fmul_fin, fdiv_fin by exact Hsq. cbn [bind].
  replace (q * 0 / (theta * theta)) with (IZR 0) by (field; exact Hth).
  rewrite np_ceil_int.
  assert (Hnu : nu_at eq_s_squared
                  {| eq_s_squared := []; eq_theta := Fin theta;
                     eq_significance_level := alpha;
                     eq_min_power := power |} (Fin 0) = Ok NaN).
  { unfold nu_at, generalised_welch_satterthwaite.
    cbn [eq_s_squared length seq gws_for bind fst snd].
    unfold np_power2, fdiv, fmul, inf_signed.
    decide_reals; try reflexivity; exfalso; lra. }
  rewrite Hnu. cbn [bind].
  unfold rhs_value_equal, t_quantile_diff.
  cbn [eq_s_squared eq_theta eq_significance_level eq_min_power].
  rewrite !Ht. reflexivity.
Qed.

Lemma get_min_sample_sizes_equal_no_groups_witness :
  @get_min_sample_sizes_equal uniform_quantiles 1 [] (Fin 0.005)
    (Fin 0.05) (Fin 0.8)
  = Some (Ok (Fin 0)).
Proof.
  apply (@get_min_sample_sizes_equal_no_groups uniform_quantiles 0 0.005 9).
  - exact uniform_norm_quantile_diff.
  - lra.
  - reflexivity.
Defined.

(** With every size infinite, each group adds zero to both sums, and the
    quotient of zero by zero is NaN. *)
Lemma gws_zip_infinite_sizes (s : list pynum) (sv : list R) (A B : float64) :
  np_array s = map Fin sv ->
  gws_zip s (np_repeat PInf (length s)) (A, B) = Ok (A, B).
Proof.
  revert sv A B. induction s as [| s_i s' IH]; intros sv A B Hs;
    [reflexivity |].
  destruct sv as [| a sv']; [discriminate |].
  unfold np_array in Hs. simpl in Hs. injection Hs as Ha Hs'.
  cbn [length np_repeat repeat gws_zip].
  unfold gws_raises, gws_num, gws_den. cbn [fst snd is_np val].
  rewrite orb_true_r, Ha. cbn [negb andb].
  change (fdiv (Fin a) PInf) with (Fin 0).
  change (fdiv (np_power2 (Fin a))
            (fmul (fmul (fsub PInf (Fin 1)) PInf) PInf)) with (Fin 0).
  rewrite !fadd_0_r. now apply (IH sv').
Qed.

Lemma gws_infinite_sizes (s : list pynum) (sv : list R) :
  np_array s = map Fin sv ->
  generalised_welch_satterthwaite s (np_repeat PInf (length s)) = Ok NaN.
Proof.
  intros Hs. rewrite gws_unfold, (gws_zip_infinite_sizes s sv) by exact Hs.
  cbn [bind fst snd]. unfold np_power2, fdiv, fmul, inf_signed.
  decide_reals; try reflexivity; exfalso; lra.
Qed.

(** X18.  An effect of zero is not rejected: with real variances of
    positive sum and a positive quantile difference under the normal
    approximation, [get_min_sample_sizes_equal] returns an infinity (the
    right-hand side divides by theta^2 = 0, and the degrees of freedom of
    infinite groups are NaN). *)
Theorem get_min_sample_sizes_equal_zero_effect {Q : Quantiles}
    (fuel : nat) (s : list pynum) (sv : list R) (q : R)
    (alpha power : float64) :
  np_array s = map Fin sv ->
  0 < Rsum sv ->
  norm_quantile_diff alpha power = Fin q ->
  0 < q ->
  (forall p, t_ppf p NaN = NaN) ->
  get_min_sample_sizes_equal (S fuel) s (Fin 0) alpha power
  = Some (Ok PInf).
Proof.
  intros Hs Hsum Hq Hpos Ht.
  unfold get_min_sample_sizes_equal, get_min_sample_sizes, init_state.
  unfold rhs_value_equal at 1.
  cbn [eq_s_squared eq_theta eq_significance_level eq_min_power].
  rewrite Hq, Hs, np_sum_fsum, fsum_fin. unfold np_power2.
  rewrite !fmul_fin.
  assert (Hinf : fdiv (Fin (q * Rsum sv)) (Fin (0 * 0)) = PInf).
  { unfold fdiv. destruct (Req_dec_T (0 * 0) 0); [| lra].
    apply inf_signed_pos. nra. }
  rewrite Hinf. cbn [bind np_ceil].
  unfold nu_at. cbn [eq_s_squared].
  rewrite (gws_infinite_sizes s sv Hs). cbn [bind].
  unfold rhs_value_equal, t_quantile_diff.
  cbn [eq_s_squared eq_theta eq_significance_level eq_min_power].
  rewrite !Ht. reflexivity.
Qed.

Lemma get_min_sample_sizes_equal_zero_effect_witness :
  @get_min_sample_sizes_equal uniform_quantiles 1 quarter_variances
    (Fin 0) (Fin 0.05) (Fin 0.8)
  = Some (Ok PInf).
Proof.
  apply (@get_min_sample_sizes_equal_zero_effect uniform_quantiles 0
           quarter_variances [0.25; 0.25; 0.25; 0.25] 9).
  - reflexivity.
  - unfold Rsum. cbn [fold_right]. lra.
  - exact uniform_norm_quantile_diff.
  - lra.
  - reflexivity.
Defined.

(* ================================================================== *)
(** * The returned size is never negative *)
(* ================================================================== *)

Section CeilingOfRhs.
Context {K : Type}.
Variable lookup_s : K -> list pynum.
Variable rhs_func : K -> option float64 -> result float64.
Variable kwargs : K.

Lemma state_after_last (k : nat) (st st' : loop_state) :
  state_after lookup_s rhs_func kwargs (S k) st = Some st' ->
  exists st'',
    state_after lookup_s rhs_func kwargs k st = Some st'' /\
    while_step lookup_s rhs_func kwargs st'' = Continue st'.
Proof.
  revert st. induction k as [| k IH]; intros st H.
  - simpl in H.
    destruct (while_step lookup_s rhs_func kwargs st) as [st1 | |] eqn:Hs;
      try discriminate.
    injection H as <-. exists st. auto.
  - change (state_after lookup_s rhs_func kwargs (S (S k)) st)
      with (match while_step lookup_s rhs_func kwargs st with
            | Continue st1 => state_after lookup_s rhs_func kwargs (S k) st1
            | _ => None
            end) in H.
    cbn [state_after].
    destruct (while_step lookup_s rhs_func kwargs st) as [st1 | |];
      try discriminate.
    now apply IH.
Qed.

(** The returned value is the ceiling of a value of [rhs_func]. *)
Lemma returned_is_ceiling_of_rhs (fuel : nat) (n : float64) :
  get_min_sample_sizes lookup_s rhs_func kwargs fuel = Some (Ok n) ->
  exists nu x, rhs_func kwargs nu = Ok x /\ n = np_ceil x.
Proof.
  intros H.
  destruct (returned_inv _ _ _ fuel n H)
    as (st & k & st' & Hinit & Hk & -> & _ & _).
  destruct k as [| k].
  - simpl in Hk. injection Hk as <-.
    destruct (init_state_inv _ _ _ st Hinit) as (r0 & H0 & Hn). eauto.
  - destruct (state_after_last k st st' Hk) as (st'' & Hk' & Hs).
    pose proof (state_after_consistent _ _ _ k st st''
                  (init_state_consistent _ _ _ st Hinit) Hk')
      as (_ & Hr & _).
    apply while_step_continue in Hs as (_ & Hn & _). eauto.
Qed.
End CeilingOfRhs.

Lemma np_power2_shape (d : float64) :
  (exists r, 0 <= r /\ np_power2 d = Fin r) \/
  np_power2 d = PInf \/ np_power2 d = NaN.
Proof.
  destruct d as [a | | |]; unfold np_power2, fmul; auto.
  left. exists (a * a). split; [nra | reflexivity].
Qed.

(** The right-hand side of the equal-size procedure is a non-negative
    real number, the positive infinity or NaN. *)
Lemma rhs_value_equal_shape {Q : Quantiles} (kw : kwargs_equal)
    (sv : list R) (theta : R) (nu : option float64) (x : float64) :
  np_array (eq_s_squared kw) = map Fin sv ->
  Forall (fun a => 0 <= a) sv ->
  eq_theta kw = Fin theta ->
  rhs_value_equal kw nu = Ok x ->
  (exists r, 0 <= r /\ x = Fin r) \/ x = PInf \/ x = NaN.
Proof.
  intros Hs Hnonneg Hth Hx.
  pose proof (Rsum_nonneg sv Hnonneg) as Hsum.
  unfold rhs_value_equal in Hx. rewrite Hs, Hth, np_sum_fsum, fsum_fin in Hx.
  injection Hx as <-.
  assert (Hsq : 0 <= theta * theta) by nra.
  set (qd := match nu with
             | Some nu0 =>
                 t_quantile_diff (eq_significance_level kw)
                   (eq_min_power kw) nu0
             | None =>
                 norm_quantile_diff (eq_significance_level kw)
                   (eq_min_power kw)
             end).
  assert (Hqd : (exists r, 0 <= r /\ qd = Fin r) \/ qd = PInf \/ qd = NaN).
  { unfold qd, t_quantile_diff, norm_quantile_diff.
    destruct nu; apply np_power2_shape. }
  change (np_power2 (Fin theta)) with (Fin (theta * theta)).
  destruct Hqd as [(r & Hr & ->) | [-> | ->]].
  - rewrite fmul_fin.
    pose proof (Rmult_le_pos _ _ Hr Hsum) as Hprod.
    unfold fdiv, inf_signed.
    decide_reals; try (exfalso; lra);
      try (right; right; reflexivity); try (right; left; reflexivity).
    left. eexists. split; [| reflexivity].
    apply Rmult_le_pos; [exact Hprod |].
    apply Rlt_le, Rinv_0_lt_compat. lra.
  - unfold fmul, fdiv, inf_signed.
    decide_reals; try (exfalso; lra);
      try (right; right; reflexivity); try (right; left; reflexivity).
  - auto.
Qed.

(** X19.  For real non-negative variances and a real effect, a value
    returned by [get_min_sample_sizes_equal] is a non-negative integer,
    the positive infinity or NaN: never a negative number and never a
    fraction. *)
Theorem get_min_sample_sizes_equal_returns_no_negative_size
    {Q : Quantiles} (fuel : nat) (s : list pynum) (sv : list R)
    (theta : R) (alpha power n : float64) :
  np_array s = map Fin sv ->
  Forall (fun a => 0 <= a) sv ->
  get_min_sample_sizes_equal fuel s (Fin theta) alpha power = Some (Ok n) ->
  (exists z : Z, (0 <= z)%Z /\ n = Fin (IZR z)) \/ n = PInf \/ n = NaN.
Proof.
  intros Hs Hnonneg Hret.
  unfold get_min_sample_sizes_equal in Hret.
  apply returned_is_ceiling_of_rhs in Hret as (nu & x & Hx & ->).
  destruct (rhs_value_equal_shape
              {| eq_s_squared := s; eq_theta := Fin theta;
                 eq_significance_level := alpha; eq_min_power := power |}
              sv theta nu x Hs Hnonneg eq_refl Hx)
    as [(r & Hr & ->) | [-> | ->]]; auto.
  left. exists (Zceil r). split; [| reflexivity].
  apply le_IZR. pose proof (Zceil_bound r). lra.
Qed.

Lemma get_min_sample_sizes_equal_returns_no_negative_size_witness :
  (exists z : Z, (0 <= z)%Z /\ Fin 5 = Fin (IZR z)) \/
  Fin 5 = PInf \/ Fin 5 = NaN.
Proof.
  apply (@get_min_sample_sizes_equal_returns_no_negative_size
           uniform_quantiles 1 [PyNum (Fin 0.25); PyNum (Fin 0.25)]
           [0.25; 0.25] 1 (Fin 0.05) (Fin 0.8) (Fin 5)).
  - reflexivity.
  - repeat constructor; lra.
  - apply two_groups_returns. lra.
Defined.
